(** * WinSparkle appcast core: version comparison and appcast parsing

    A shallow embedding of [src/appcast.cpp]: the version comparator
    ([ClassifyChar], [SplitVersionString], [CompareVersions]) and the
    expat callbacks ([OnStartElement], [OnEndElement], [OnText]) together
    with [Appcast::Load].

    Conventions.
    - A [std::string] is a [string]; a [char] is an [ascii], ordered by its
      code as an unsigned byte.
    - An [int] is a [Z].  The nesting counters only move by one per XML
      event, so they stay far from the limits of [int] on any document the
      parser can be handed, and no wrap-around is written for them.
    - [std::string::compare] is specified by its sign only; it is modelled
      as returning -1, 0 or 1.
    - [atoi] is the C library's: optional white space, an optional sign and
      the longest run of decimal digits.  On a value outside the range of
      [int] the Windows C runtime, for which this code is written, answers
      [INT_MAX] or [INT_MIN]; that is what [atoi] below does. *)

From Stdlib Require Import ZArith NArith List String Ascii Bool Lia.
Import ListNotations.

Local Open Scope string_scope.
Local Open Scope Z_scope.

(* ------------------------------------------------------------------ *)
(** ** Version comparison *)

(** String characters classification. *)
Inductive CharType : Type :=
| Type_Number
| Type_Period
| Type_String.

Definition CharType_eqb (x y : CharType) : bool :=
  match x, y with
  | Type_Number, Type_Number => true
  | Type_Period, Type_Period => true
  | Type_String, Type_String => true
  | _, _ => false
  end.

Definition is_digit (c : ascii) : bool :=
  ((48 <=? N_of_ascii c) && (N_of_ascii c <=? 57))%N.

Definition ClassifyChar (c : ascii) : CharType :=
  if Ascii.eqb c "."%char then Type_Period
  else if is_digit c then Type_Number
  else Type_String.

(** [s[0]]: the first character, or the terminating NUL of an empty string. *)
Definition front (s : string) : ascii :=
  match s with
  | String c _ => c
  | EmptyString => zero
  end.

(** [s += c] *)
Definition push_char (s : string) (c : ascii) : string :=
  s ++ String c EmptyString.

(** The [for] loop of [SplitVersionString], run over the characters
    [version[1..len-1]] that are still to be read; [s] is the segment being
    built, [prevType] the class of the previous character and [vec] the
    segments pushed so far (the vector [list] of the source). *)
Fixpoint split_loop (rest s : string) (prevType : CharType)
                    (vec : list string) : list string :=
  match rest with
  | EmptyString => vec ++ [s]
  | String c rest' =>
      let newType := ClassifyChar c in
      if negb (CharType_eqb prevType newType) || CharType_eqb prevType Type_Period
      then split_loop rest' (String c EmptyString) newType (vec ++ [s])
      else split_loop rest' (push_char s c) newType vec
  end.

Definition SplitVersionString (version : string) : list string :=
  match version with
  | EmptyString => []
  | String c0 rest => split_loop rest (String c0 EmptyString) (ClassifyChar c0) []
  end.

(** [a.compare(b)]: lexicographic on unsigned bytes, a proper prefix first. *)
Fixpoint string_compare (a b : string) : Z :=
  match a, b with
  | EmptyString, EmptyString => 0
  | EmptyString, String _ _ => -1
  | String _ _, EmptyString => 1
  | String x a', String y b' =>
      if (N_of_ascii x <? N_of_ascii y)%N then -1
      else if (N_of_ascii y <? N_of_ascii x)%N then 1
      else string_compare a' b'
  end.

Definition INT_MAX : Z := 2147483647.
Definition INT_MIN : Z := -2147483648.

Definition clamp_int (z : Z) : Z :=
  if z >? INT_MAX then INT_MAX
  else if z <? INT_MIN then INT_MIN
  else z.

Definition isspace (c : ascii) : bool :=
  let n := N_of_ascii c in
  ((n =? 32) || ((9 <=? n) && (n <=? 13)))%N.

Definition digit_value (c : ascii) : Z := Z.of_N (N_of_ascii c) - 48.

(** The value of the longest prefix of decimal digits, continuing [acc]. *)
Fixpoint read_digits (s : string) (acc : Z) : Z :=
  match s with
  | String c s' =>
      if is_digit c then read_digits s' (10 * acc + digit_value c) else acc
  | EmptyString => acc
  end.

Fixpoint skip_spaces (s : string) : string :=
  match s with
  | String c s' => if isspace c then skip_spaces s' else s
  | EmptyString => s
  end.

Definition atoi (s : string) : Z :=
  match skip_spaces s with
  | String "-"%char r => clamp_int (- read_digits r 0)
  | String "+"%char r => clamp_int (read_digits r 0)
  | r => clamp_int (read_digits r 0)
  end.

(** One turn of the loop of [CompareVersions] on the components [a] and
    [b]: [Some r] is [return r], [None] falls through to the next index. *)
Definition compare_parts (a b : string) : option Z :=
  let typeA := ClassifyChar (front a) in
  let typeB := ClassifyChar (front b) in
  if CharType_eqb typeA typeB then
    match typeA with
    | Type_String =>
        let result := string_compare a b in
        if negb (result =? 0) then Some result else None
    | Type_Number =>
        let intA := atoi a in
        let intB := atoi b in
        if intA >? intB then Some 1
        else if intA <? intB then Some (-1)
        else None
    | Type_Period => None
    end
  else
    if negb (CharType_eqb typeA Type_String) && CharType_eqb typeB Type_String
    then Some 1
    else if CharType_eqb typeA Type_String && negb (CharType_eqb typeB Type_String)
    then Some (-1)
    else Some (if CharType_eqb typeA Type_Number then 1 else -1).

(** [for (i = ...; i < n; i++)] with [todo] turns left. *)
Fixpoint compare_loop (todo : nat) (i : nat) (partsA partsB : list string)
  : option Z :=
  match todo with
  | O => None
  | S todo' =>
      match compare_parts (nth i partsA "") (nth i partsB "") with
      | Some r => Some r
      | None => compare_loop todo' (S i) partsA partsB
      end
  end.

Definition CompareVersions (verA verB : string) : Z :=
  let partsA := SplitVersionString verA in
  let partsB := SplitVersionString verB in
  let n := Nat.min (List.length partsA) (List.length partsB) in
  match compare_loop n 0 partsA partsB with
  | Some r => r
  | None =>
      if (List.length partsA =? List.length partsB)%nat then 0
      else
        let '(missingPartType, shorterResult, longerResult) :=
          if (List.length partsB <? List.length partsA)%nat
          then (ClassifyChar (front (nth n partsA "")), -1, 1)
          else (ClassifyChar (front (nth n partsB "")), 1, -1) in
        if CharType_eqb missingPartType Type_String
        then shorterResult
        else longerResult
  end.

(* ------------------------------------------------------------------ *)
(** ** XML parsing *)

Definition NS_SPARKLE : string :=
  "http://www.andymatuschak.org/xml-namespaces/sparkle".
Definition NS_SPARKLE_NAME (name : string) : string :=
  NS_SPARKLE ++ "#" ++ name.

Definition NODE_CHANNEL : string := "channel".
Definition NODE_ITEM : string := "item".
Definition NODE_RELNOTES : string := NS_SPARKLE_NAME "releaseNotesLink".
Definition NODE_TITLE : string := "title".
Definition NODE_DESCRIPTION : string := "description".
Definition NODE_ENCLOSURE : string := "enclosure".
Definition ATTR_URL : string := "url".
Definition ATTR_VERSION : string := NS_SPARKLE_NAME "version".
Definition ATTR_SHORTVERSION : string := NS_SPARKLE_NAME "shortVersionString".

(** The six string fields of [struct Appcast] that the parser writes. *)
Record Appcast : Type := mkAppcast {
  Version : string;
  ShortVersionString : string;
  DownloadURL : string;
  ReleaseNotesURL : string;
  Title : string;
  Description : string
}.

(** A default-constructed [Appcast]. *)
Definition empty_appcast : Appcast := mkAppcast "" "" "" "" "" "".

Definition set_Version (v : string) (a : Appcast) : Appcast :=
  mkAppcast v (ShortVersionString a) (DownloadURL a)
            (ReleaseNotesURL a) (Title a) (Description a).
Definition set_ShortVersionString (v : string) (a : Appcast) : Appcast :=
  mkAppcast (Version a) v (DownloadURL a)
            (ReleaseNotesURL a) (Title a) (Description a).
Definition set_DownloadURL (v : string) (a : Appcast) : Appcast :=
  mkAppcast (Version a) (ShortVersionString a) v
            (ReleaseNotesURL a) (Title a) (Description a).
Definition set_ReleaseNotesURL (v : string) (a : Appcast) : Appcast :=
  mkAppcast (Version a) (ShortVersionString a) (DownloadURL a)
            v (Title a) (Description a).
Definition set_Title (v : string) (a : Appcast) : Appcast :=
  mkAppcast (Version a) (ShortVersionString a) (DownloadURL a)
            (ReleaseNotesURL a) v (Description a).
Definition set_Description (v : string) (a : Appcast) : Appcast :=
  mkAppcast (Version a) (ShortVersionString a) (DownloadURL a)
            (ReleaseNotesURL a) (Title a) v.

(** Context data for the parser: the appcast being parsed into and the five
    nesting counters.  (The [parser] member is only read by the call of
    [XML_StopParser] that the source has commented out.) *)
Record ContextData : Type := mkContextData {
  appcast : Appcast;
  in_channel : Z;
  in_item : Z;
  in_relnotes : Z;
  in_title : Z;
  in_description : Z
}.

(** [ContextData(a, p)] *)
Definition new_context (a : Appcast) : ContextData :=
  mkContextData a 0 0 0 0 0.

Definition set_appcast (a : Appcast) (c : ContextData) : ContextData :=
  mkContextData a (in_channel c) (in_item c) (in_relnotes c)
                (in_title c) (in_description c).
Definition set_in_channel (n : Z) (c : ContextData) : ContextData :=
  mkContextData (appcast c) n (in_item c) (in_relnotes c)
                (in_title c) (in_description c).
Definition set_in_item (n : Z) (c : ContextData) : ContextData :=
  mkContextData (appcast c) (in_channel c) n (in_relnotes c)
                (in_title c) (in_description c).
Definition set_in_relnotes (n : Z) (c : ContextData) : ContextData :=
  mkContextData (appcast c) (in_channel c) (in_item c) n
                (in_title c) (in_description c).
Definition set_in_title (n : Z) (c : ContextData) : ContextData :=
  mkContextData (appcast c) (in_channel c) (in_item c) (in_relnotes c)
                n (in_description c).
Definition set_in_description (n : Z) (c : ContextData) : ContextData :=
  mkContextData (appcast c) (in_channel c) (in_item c) (in_relnotes c)
                (in_title c) n.

(** What a callback can read and write: the context handed to it as user
    data and the file-level [static std::string last_version]. *)
Record ParseState : Type := mkParseState {
  ctxt : ContextData;
  last_version : string
}.

(** An [int] used as a condition. *)
Definition nonzero (n : Z) : bool := negb (n =? 0).

(** The attribute array of expat, [name, value, name, value, ..., NULL]. *)
Definition Attrs : Type := list (string * string).

(** First loop of the enclosure branch: [go] is raised when an attribute
    named [ATTR_VERSION] is newer than [last_version]. *)
Fixpoint enclosure_check (last : string) (attrs : Attrs) (go : Z) : Z :=
  match attrs with
  | [] => go
  | (name, value) :: rest =>
      enclosure_check last rest
        (if (name =? ATTR_VERSION)%string
         then (if CompareVersions last value <? 0 then 1 else go)
         else go)
  end.

(** Second loop of the enclosure branch: copy the known attributes. *)
Fixpoint enclosure_copy (attrs : Attrs) (a : Appcast) (last : string)
  : Appcast * string :=
  match attrs with
  | [] => (a, last)
  | (name, value) :: rest =>
      if (name =? ATTR_URL)%string
      then enclosure_copy rest (set_DownloadURL value a) last
      else if (name =? ATTR_VERSION)%string
      then enclosure_copy rest (set_Version value a) value
      else if (name =? ATTR_SHORTVERSION)%string
      then enclosure_copy rest (set_ShortVersionString value a) last
      else enclosure_copy rest a last
  end.

Definition enclosure (attrs : Attrs) (st : ParseState) : ParseState :=
  let go :=
    if (0 <? Z.of_nat (String.length (last_version st)))
    then enclosure_check (last_version st) attrs 0
    else 1 in
  if go =? 1 then
    let '(a, last) :=
      enclosure_copy attrs (appcast (ctxt st)) (last_version st) in
    mkParseState (set_appcast a (ctxt st)) last
  else st.

Definition OnStartElement (name : string) (attrs : Attrs) (st : ParseState)
  : ParseState :=
  let c := ctxt st in
  if (name =? NODE_CHANNEL)%string then
    mkParseState (set_in_channel (in_channel c + 1) c) (last_version st)
  else if nonzero (in_channel c) && (name =? NODE_ITEM)%string then
    mkParseState (set_in_item (in_item c + 1) c) (last_version st)
  else if nonzero (in_item c) then
    if (name =? NODE_RELNOTES)%string then
      mkParseState (set_in_relnotes (in_relnotes c + 1) c) (last_version st)
    else if (name =? NODE_TITLE)%string then
      mkParseState (set_in_title (in_title c + 1) c) (last_version st)
    else if (name =? NODE_DESCRIPTION)%string then
      mkParseState (set_in_description (in_description c + 1) c)
                   (last_version st)
    else if (name =? NODE_ENCLOSURE)%string then
      enclosure attrs st
    else st
  else st.

Definition OnEndElement (name : string) (st : ParseState) : ParseState :=
  let c := ctxt st in
  if nonzero (in_item c) && (name =? NODE_RELNOTES)%string then
    mkParseState (set_in_relnotes (in_relnotes c - 1) c) (last_version st)
  else if nonzero (in_item c) && (name =? NODE_TITLE)%string then
    mkParseState (set_in_title (in_title c - 1) c) (last_version st)
  else if nonzero (in_item c) && (name =? NODE_DESCRIPTION)%string then
    mkParseState (set_in_description (in_description c - 1) c)
                 (last_version st)
  else if nonzero (in_channel c) && (name =? NODE_ITEM)%string then
    (* the call of XML_StopParser is commented out: nothing is done *)
    st
  else if (name =? NODE_CHANNEL)%string then
    mkParseState (set_in_channel (in_channel c - 1) c) (last_version st)
  else st.

(** [s] stands for the [len] bytes handed over by the engine. *)
Definition OnText (s : string) (st : ParseState) : ParseState :=
  let c := ctxt st in
  let a := appcast c in
  if nonzero (in_relnotes c) then
    mkParseState (set_appcast (set_ReleaseNotesURL (ReleaseNotesURL a ++ s) a) c)
                 (last_version st)
  else if nonzero (in_title c) then
    mkParseState (set_appcast (set_Title (Title a ++ s) a) c) (last_version st)
  else if nonzero (in_description c) then
    mkParseState (set_appcast (set_Description (Description a ++ s) a) c)
                 (last_version st)
  else st.

(** The calls the XML engine makes into the three handlers. *)
Inductive XML_Event : Type :=
| StartElement (name : string) (attrs : Attrs)
| EndElement (name : string)
| CharacterData (s : string).

Definition handle (st : ParseState) (e : XML_Event) : ParseState :=
  match e with
  | StartElement name attrs => OnStartElement name attrs st
  | EndElement name => OnEndElement name st
  | CharacterData s => OnText s st
  end.

Definition run_events (evs : list XML_Event) (st : ParseState) : ParseState :=
  fold_left handle evs st.

(** *** The XML engine

    expat is not part of the repository; [Appcast::Load] is modelled over
    any engine with expat's interface.  [XML_Parse] calls the registered
    handlers for the events it recognises, in document order, and then
    answers a status; on [XML_STATUS_ERROR] the events are those that
    precede the point of the error. *)
Inductive XML_Status : Type :=
| XML_STATUS_ERROR
| XML_STATUS_OK
| XML_STATUS_SUSPENDED.

Record XML_Engine : Type := mkEngine {
  (** does [XML_ParserCreateNS] return a parser? *)
  XML_ParserCreateNS : bool;
  (** the handler calls made for a document fed whole, and the status *)
  XML_Parse : string -> list XML_Event * XML_Status;
  (** the error code left in the parser by that call *)
  XML_GetErrorCode : string -> Z;
  XML_ErrorString : Z -> string
}.

(** How a call of [Appcast::Load] ends. *)
Inductive LoadResult : Type :=
| Returned
| Thrown (what : string).

(** [this->Load(xml)] with [last] in [last_version] before the call: the way
    the call ends, [*this] afterwards and [last_version] afterwards. *)
Definition Load (eng : XML_Engine) (xml : string) (this : Appcast)
                (last : string) : LoadResult * Appcast * string :=
  if negb (XML_ParserCreateNS eng) then
    (Thrown "Failed to create XML parser.", this, last)
  else
    let '(evs, st) := XML_Parse eng xml in
    let final := run_events evs (mkParseState (new_context this) last) in
    match st with
    | XML_STATUS_ERROR =>
        let msg := "XML parser error: " ++
                   XML_ErrorString eng (XML_GetErrorCode eng xml) in
        (Thrown msg, appcast (ctxt final), last_version final)
    | _ => (Returned, appcast (ctxt final), last_version final)
    end.

(* ------------------------------------------------------------------ *)
(** ** Vocabulary of the statements *)

(** The class of a component, read off its first character as
    [CompareVersions] does. *)
Definition part_type (a : string) : CharType := ClassifyChar (front a).

(** Number above Period above String. *)
Definition class_rank (t : CharType) : Z :=
  match t with
  | Type_String => 0
  | Type_Period => 1
  | Type_Number => 2
  end.

Fixpoint string_forall (p : ascii -> bool) (s : string) : bool :=
  match s with
  | EmptyString => true
  | String c s' => p c && string_forall p s'
  end.

(** A non-empty run of characters of the class [t]. *)
Definition uniform_part (t : CharType) (s : string) : Prop :=
  s <> "" /\ string_forall (fun c => CharType_eqb (ClassifyChar c) t) s = true.

(** The number a string of decimal digits denotes, by position. *)
Fixpoint dec_value (s : string) : Z :=
  match s with
  | EmptyString => 0
  | String c s' => digit_value c * 10 ^ Z.of_nat (String.length s') + dec_value s'
  end.

(** What exact comparison of two digit strings as base-10 integers asks of
    one turn of the walk: a sign, or [None] to go on to the next pair. *)
Definition exact_sign (a b : string) : option Z :=
  match dec_value a ?= dec_value b with
  | Gt => Some 1
  | Lt => Some (-1)
  | Eq => None
  end.

(* ------------------------------------------------------------------ *)
(** ** The comparator as a walk over two lists of components *)

(** The value [CompareVersions] computes once both strings are split. *)
Definition compare_vectors (partsA partsB : list string) : Z :=
  let n := Nat.min (List.length partsA) (List.length partsB) in
  match compare_loop n 0 partsA partsB with
  | Some r => r
  | None =>
      if (List.length partsA =? List.length partsB)%nat then 0
      else
        let '(missingPartType, shorterResult, longerResult) :=
          if (List.length partsB <? List.length partsA)%nat
          then (ClassifyChar (front (nth n partsA "")), -1, 1)
          else (ClassifyChar (front (nth n partsB "")), 1, -1) in
        if CharType_eqb missingPartType Type_String
        then shorterResult
        else longerResult
  end.

(** The sign given by the first component that one vector has and the
    other lacks. *)
Definition extra_part (a : string) : Z :=
  if CharType_eqb (ClassifyChar (front a)) Type_String then -1 else 1.

(** The same walk by recursion on the two vectors. *)
Fixpoint compare_lists (pa pb : list string) : Z :=
  match pa, pb with
  | [], [] => 0
  | a :: _, [] => extra_part a
  | [], b :: _ => - extra_part b
  | a :: pa', b :: pb' =>
      match compare_parts a b with
      | Some r => r
      | None => compare_lists pa' pb'
      end
  end.

(** The walk has reached index [i]: no earlier pair decided. *)
Definition undecided_before (partsA partsB : list string) (i : nat) : Prop :=
  forall j, (j < i)%nat ->
    compare_parts (nth j partsA "") (nth j partsB "") = None.

(** A component, or the end of the vector. *)
Definition compare_ends (x y : option string) : Z :=
  match x, y with
  | None, None => 0
  | Some a, None => extra_part a
  | None, Some b => - extra_part b
  | Some a, Some b =>
      match compare_parts a b with
      | Some r => r
      | None => 0
      end
  end.

(** *** Attributes of an enclosure *)

(** The value the copy loop leaves for the attribute [name]: that of the
    last attribute so named.  XML allows an element one attribute of a
    given name, so for the arrays the engine hands over it is the value
    of the attribute. *)
Fixpoint attr_value (name : string) (attrs : Attrs) : option string :=
  match attrs with
  | [] => None
  | (n, v) :: rest =>
      match attr_value name rest with
      | Some w => Some w
      | None => if (n =? name)%string then Some v else None
      end
  end.

Definition opt_or (o : option string) (d : string) : string :=
  match o with
  | Some v => v
  | None => d
  end.

(** The enclosure has an attribute [sparkle:version] that compares
    strictly greater than [last]. *)
Definition newer_than (last : string) (attrs : Attrs) : Prop :=
  exists v, In (ATTR_VERSION, v) attrs /\ CompareVersions v last > 0.

(** The state after an accepted enclosure: each of the three attributes
    copied if present, every other part as before. *)
Definition accepted (attrs : Attrs) (st : ParseState) : ParseState :=
  let a := appcast (ctxt st) in
  mkParseState
    (set_appcast
       (mkAppcast (opt_or (attr_value ATTR_VERSION attrs) (Version a))
                  (opt_or (attr_value ATTR_SHORTVERSION attrs)
                          (ShortVersionString a))
                  (opt_or (attr_value ATTR_URL attrs) (DownloadURL a))
                  (ReleaseNotesURL a) (Title a) (Description a))
       (ctxt st))
    (opt_or (attr_value ATTR_VERSION attrs) (last_version st)).

(** The enclosure carries no [sparkle:version] attribute. *)
Definition versionless (attrs : Attrs) : Prop :=
  forall v, ~ In (ATTR_VERSION, v) attrs.

(** The enclosure carries the [sparkle:version] attribute [v] and no
    other value for it. *)
Definition carries_version (attrs : Attrs) (v : string) : Prop :=
  forall w, In (ATTR_VERSION, w) attrs <-> w = v.

(** A run of enclosure elements met inside an item. *)
Definition enclosure_events (encs : list Attrs) : list XML_Event :=
  map (StartElement NODE_ENCLOSURE) encs.

Definition version_of (e : Attrs) : string :=
  opt_or (attr_value ATTR_VERSION e) "".

(** [e] is the first enclosure of [pre ++ e :: post] whose version is
    maximal for the comparator. *)
Definition first_maximal (pre : list Attrs) (e : Attrs) (post : list Attrs)
  : Prop :=
  (forall x, In x pre -> CompareVersions (version_of x) (version_of e) < 0) /\
  (forall x, In x post -> CompareVersions (version_of x) (version_of e) <= 0).

(** C2 read on a descriptor [a] that results from the enclosures [encs]:
    its Version is that of the first maximal enclosure, from which its
    DownloadURL and ShortVersionString come too. *)
Definition reflects_highest (encs : list Attrs) (a : Appcast) : Prop :=
  exists pre e post,
    encs = (pre ++ e :: post)%list /\ first_maximal pre e post /\
    Version a = version_of e /\
    attr_value ATTR_URL e = Some (DownloadURL a) /\
    attr_value ATTR_SHORTVERSION e = Some (ShortVersionString a).

(** *** Element names *)

(** The six element names the handlers tell apart. *)
Inductive NodeKind : Type :=
| KChannel | KItem | KRelnotes | KTitle | KDescription | KEnclosure | KOther.

Definition node_kind (name : string) : NodeKind :=
  if (name =? NODE_CHANNEL)%string then KChannel
  else if (name =? NODE_ITEM)%string then KItem
  else if (name =? NODE_RELNOTES)%string then KRelnotes
  else if (name =? NODE_TITLE)%string then KTitle
  else if (name =? NODE_DESCRIPTION)%string then KDescription
  else if (name =? NODE_ENCLOSURE)%string then KEnclosure
  else KOther.

(** The enclosure carries one, non-empty, [sparkle:version]. *)
Definition versioned (e : Attrs) : Prop :=
  exists v, v <> "" /\ carries_version e v.

(** *** Text and nesting *)

(** Which field [OnText] appends to, from the counters alone. *)
Definition to_relnotes (c : ContextData) : bool := nonzero (in_relnotes c).
Definition to_title (c : ContextData) : bool :=
  negb (nonzero (in_relnotes c)) && nonzero (in_title c).
Definition to_description (c : ContextData) : bool :=
  negb (nonzero (in_relnotes c)) && negb (nonzero (in_title c))
  && nonzero (in_description c).

(** The character data of [evs], in call order, delivered at moments at
    which [sel] holds of the context, when the events are handled from
    [st] on. *)
Fixpoint texts_while (sel : ContextData -> bool) (evs : list XML_Event)
                     (st : ParseState) : string :=
  match evs with
  | [] => ""
  | e :: rest =>
      match e with
      | CharacterData s => if sel (ctxt st) then s else ""
      | _ => ""
      end ++ texts_while sel rest (handle st e)
  end.

(** How many elements called [name] are open after [evs]: the starts
    less the ends.  This is the depth C6 speaks of, which goes down again
    at the end of the element. *)
Fixpoint open_depth (name : string) (evs : list XML_Event) : Z :=
  match evs with
  | [] => 0
  | StartElement n _ :: rest =>
      (if (n =? name)%string then 1 else 0) + open_depth name rest
  | EndElement n :: rest =>
      (if (n =? name)%string then -1 else 0) + open_depth name rest
  | CharacterData _ :: rest => open_depth name rest
  end.

(** The number of open elements of kind [k] on a stack of open elements. *)
Fixpoint kind_depth (k : NodeKind) (stack : list string) : Z :=
  match stack with
  | [] => 0
  | n :: rest =>
      (match k, node_kind n with
       | KChannel, KChannel | KItem, KItem | KRelnotes, KRelnotes
       | KTitle, KTitle | KDescription, KDescription
       | KEnclosure, KEnclosure => 1
       | _, _ => 0
       end) + kind_depth k rest
  end.

(** The events are well nested above the open elements [stack] (innermost
    first): every end closes the innermost open element; and no item starts
    inside an open releaseNotesLink, title or description. *)
Fixpoint well_nested (stack : list string) (evs : list XML_Event) : Prop :=
  match evs with
  | [] => True
  | StartElement n _ :: rest =>
      (node_kind n = KItem ->
       kind_depth KRelnotes stack = 0 /\ kind_depth KTitle stack = 0 /\
       kind_depth KDescription stack = 0) /\
      well_nested (n :: stack) rest
  | EndElement n :: rest =>
      match stack with
      | top :: below => top = n /\ well_nested below rest
      | [] => False
      end
  | CharacterData _ :: rest => well_nested stack rest
  end.

Definition counters_nonneg (c : ContextData) : Prop :=
  0 <= in_channel c /\ 0 <= in_item c /\ 0 <= in_relnotes c /\
  0 <= in_title c /\ 0 <= in_description c.

(** A counter of a text element moves only by the start and end events of
    that element, by one, and only while [in_item] is non-zero. *)
Definition moves_inside_item (counter : ContextData -> Z) (name : string)
  : Prop :=
  forall (e : XML_Event) (st : ParseState),
    counter (ctxt (handle st e)) <> counter (ctxt st) ->
    in_item (ctxt st) <> 0 /\
    ((exists attrs, e = StartElement name attrs) /\
     counter (ctxt (handle st e)) = counter (ctxt st) + 1
     \/
     e = EndElement name /\
     counter (ctxt (handle st e)) = counter (ctxt st) - 1).

(** What the counters know of the stack of open elements [stack] on well
    nested events: [in_channel] counts the open channels, and once an item
    has been counted the three text counters count their open elements. *)
Definition tracks (stack : list string) (c : ContextData) : Prop :=
  in_channel c = kind_depth KChannel stack /\
  0 <= in_item c /\
  (in_item c = 0 ->
   in_relnotes c = 0 /\ in_title c = 0 /\ in_description c = 0) /\
  (in_item c <> 0 ->
   in_relnotes c = kind_depth KRelnotes stack /\
   in_title c = kind_depth KTitle stack /\
   in_description c = kind_depth KDescription stack).

(** The three parts of what [Load] leaves. *)
Definition outcome (r : LoadResult * Appcast * string) : LoadResult :=
  fst (fst r).
Definition descriptor_after (r : LoadResult * Appcast * string) : Appcast :=
  snd (fst r).
Definition last_version_after (r : LoadResult * Appcast * string) : string :=
  snd r.

(** *** Sample inputs *)

(** A parse that is inside the first item of a channel, nothing read yet. *)
Definition inside_item (a : Appcast) (last : string) : ParseState :=
  mkParseState (mkContextData a 1 1 0 0 0) last.

Definition enclosure_1_0 : Attrs :=
  [(ATTR_URL, "http://example.com/app-1.0.exe"); (ATTR_VERSION, "1.0");
   (ATTR_SHORTVERSION, "One")].

Definition enclosure_2_0 : Attrs :=
  [(ATTR_URL, "http://example.com/app-2.0.exe"); (ATTR_VERSION, "2.0")].

Definition enclosure_blank : Attrs :=
  [(ATTR_URL, "http://example.com/app-blank.exe"); (ATTR_VERSION, "")].

Definition enclosure_v1_0 : Attrs :=
  [(ATTR_URL, "http://example.com/app-v1.0.exe"); (ATTR_VERSION, "v1.0")].

(** The events of a feed with two items, at versions 1.0 and 2.0. *)
Definition feed_1_0_then_2_0 : list XML_Event :=
  [StartElement NODE_CHANNEL [];
   StartElement NODE_ITEM []; StartElement NODE_ENCLOSURE enclosure_1_0;
   EndElement NODE_ENCLOSURE; EndElement NODE_ITEM;
   StartElement NODE_ITEM []; StartElement NODE_ENCLOSURE enclosure_2_0;
   EndElement NODE_ENCLOSURE; EndElement NODE_ITEM;
   EndElement NODE_CHANNEL].

(** A title that follows a closed item. *)
Definition title_after_item : list XML_Event :=
  [StartElement NODE_CHANNEL [];
   StartElement NODE_ITEM []; EndElement NODE_ITEM;
   StartElement NODE_TITLE []].

(** The end of a title that was not started, inside an item. *)
Definition title_ended_unopened : list XML_Event :=
  [StartElement NODE_CHANNEL []; StartElement NODE_ITEM [];
   EndElement NODE_TITLE].

(** A title that starts after the channel has ended, its item left open. *)
Definition title_after_channel : list XML_Event :=
  [StartElement NODE_CHANNEL []; StartElement NODE_ITEM [];
   EndElement NODE_CHANNEL; StartElement NODE_TITLE []].

(** A title, opened in the channel, that encloses an item. *)
Definition title_around_item : list XML_Event :=
  [StartElement NODE_CHANNEL []; StartElement NODE_TITLE [];
   StartElement NODE_ITEM []; EndElement NODE_ITEM;
   EndElement NODE_TITLE].

(** A fresh parse: a new context on an empty appcast, nothing seen yet. *)
Definition fresh_parse : ParseState :=
  mkParseState (new_context empty_appcast) "".

(** A feed cut short inside its first item, and an engine that tells the
    handlers what precedes the cut and then reports the error. *)
Definition truncated_feed : string :=
  "<rss xmlns:sparkle='http://www.andymatuschak.org/xml-namespaces/sparkle'><channel><item><enclosure url='http://example.com/app-1.0.exe' sparkle:version='1.0' sparkle:shortVersionString='One'/>".

Definition sample_engine : XML_Engine :=
  mkEngine true
           (fun xml =>
              if (xml =? truncated_feed)%string
              then ([StartElement "rss" []; StartElement NODE_CHANNEL [];
                     StartElement NODE_ITEM [];
                     StartElement NODE_ENCLOSURE enclosure_1_0;
                     EndElement NODE_ENCLOSURE],
                    XML_STATUS_ERROR)
              else ([], XML_STATUS_ERROR))
           (fun _ => 3)
           (fun _ => "no element found").

Definition enclosure_plain : Attrs :=
  [(ATTR_URL, "http://example.com/app.exe")].

(* ------------------------------------------------------------------ *)
(** ** Further vocabulary: components *)

(** The components put back together. *)
Definition join_parts (parts : list string) : string :=
  fold_right String.append "" parts.

(** [s] placed before the components [parts] of what follows it, [t] being
    the class of the last character of [s]: a new component, or the
    beginning of the first one. *)
Definition merge_part (s : string) (t : CharType) (parts : list string)
  : list string :=
  match parts with
  | [] => [s]
  | p :: ps =>
      if negb (CharType_eqb t (part_type p)) || CharType_eqb t Type_Period
      then s :: p :: ps
      else (s ++ p)%string :: ps
  end.

(** The components of a version by recursion on the string, from its end. *)
Fixpoint split_rec (version : string) : list string :=
  match version with
  | EmptyString => []
  | String c rest =>
      merge_part (String c EmptyString) (ClassifyChar c) (split_rec rest)
  end.

(** A component as [SplitVersionString] makes them: a non-empty run of one
    class, and a single character when that class is Period. *)
Definition component (p : string) : Prop :=
  uniform_part (part_type p) p /\
  (part_type p = Type_Period -> p = ".").

(** Each component ends where the class changes, or is a period. *)
Fixpoint maximal_runs (parts : list string) : Prop :=
  match parts with
  | p :: (q :: _) as rest =>
      (part_type p <> part_type q \/ part_type p = Type_Period) /\
      maximal_runs rest
  | _ => True
  end.

(** The last character of a non-empty string (NUL for the empty one). *)
Fixpoint back (s : string) : ascii :=
  match s with
  | EmptyString => zero
  | String c EmptyString => c
  | String _ rest => back rest
  end.

(* ------------------------------------------------------------------ *)
(** ** Further vocabulary: parses *)

(** What the enclosure rule reads and writes: the three version fields of
    the descriptor and the last-seen-version. *)
Definition version_part (st : ParseState) : string * string * string * string :=
  (Version (appcast (ctxt st)), ShortVersionString (appcast (ctxt st)),
   DownloadURL (appcast (ctxt st)), last_version st).

(** The five nesting counters. *)
Definition counters (c : ContextData) : Z * Z * Z * Z * Z :=
  (in_channel c, in_item c, in_relnotes c, in_title c, in_description c).

(** The enclosures of [evs] that the handlers get to look at, in order:
    those that start while [in_item] is non-zero, when the events are
    handled from [st] on. *)
Fixpoint seen_enclosures (evs : list XML_Event) (st : ParseState)
  : list Attrs :=
  match evs with
  | [] => []
  | e :: rest =>
      match e with
      | StartElement n attrs =>
          if (n =? NODE_ENCLOSURE)%string && nonzero (in_item (ctxt st))
          then [attrs] else []
      | _ => []
      end ++ seen_enclosures rest (handle st e)
  end.

(** The enclosure has at most one value for [sparkle:version]. *)
Definition single_version (e : Attrs) : Prop :=
  versionless e \/ exists v, carries_version e v.

Definition is_item_start (e : XML_Event) : bool :=
  match e with
  | StartElement n _ => (n =? NODE_ITEM)%string
  | _ => false
  end.

Definition is_channel_event (e : XML_Event) : bool :=
  match e with
  | StartElement n _ => (n =? NODE_CHANNEL)%string
  | EndElement n => (n =? NODE_CHANNEL)%string
  | CharacterData _ => false
  end.

(* ------------------------------------------------------------------ *)
(** ** The update check ([updatechecker.cpp]) *)

(** What [UpdateChecker::Run] asks of the rest of the program.  The
    settings, the download, the user interface and the thread class are
    not in these sources; a run is modelled over any such collaborators,
    given by what they answer:
    - [AppcastURL]: [Settings::GetAppcastURL()];
    - [DownloadFile url flags]: the data the download writes to the sink,
      or the message of the exception it throws;
    - [xml_engine]: the XML engine [Appcast::Load] uses;
    - [time_now]: [time(NULL)];
    - [AppBuildVersion]: [WideToAnsi(Settings::GetAppBuildVersion())];
    - [SkipThisVersion]: the value [Settings::ReadConfigValue] finds for
      "SkipThisVersion", if it finds one;
    - [Download_NoCached]: the download flag of that name.
    Of the collaborators only the download is taken to throw. *)
Record Collaborators : Type := mkCollaborators {
  AppcastURL : string;
  DownloadFile : string -> Z -> string + string;
  xml_engine : XML_Engine;
  time_now : Z;
  AppBuildVersion : string;
  SkipThisVersion : option string;
  Download_NoCached : Z
}.

(** The calls a run makes that can be seen from outside, in order. *)
Inductive Effect : Type :=
| SignalReady
| WriteLastCheckTime (t : Z)
| NotifyNoUpdates
| NotifyUpdateAvailable (a : Appcast)
| NotifyUpdateError.

(** [UpdateChecker] and its subclass [ManualUpdateChecker]. *)
Inductive Checker : Type :=
| Automatic
| Manual.

Definition GetAppcastDownloadFlags (env : Collaborators) (k : Checker) : Z :=
  match k with
  | Automatic => 0
  | Manual => Download_NoCached env
  end.

Definition ShouldSkipUpdate (env : Collaborators) (k : Checker)
                            (a : Appcast) : bool :=
  match k with
  | Automatic =>
      match SkipThisVersion env with
      | Some toSkip => (toSkip =? Version a)%string
      | None => false
      end
  | Manual => false
  end.

(** How a run ends: the calls it made, the message of the exception it
    lets through (if any), and [last_version] afterwards. *)
Record RunResult : Type := mkRunResult {
  effects : list Effect;
  rethrown : option string;
  last_version_left : string
}.

(** [Run()] of a checker of kind [k], with [last] in [last_version]. *)
Definition Run (env : Collaborators) (k : Checker) (last : string)
  : RunResult :=
  let url := AppcastURL env in
  if (url =? "")%string then
    mkRunResult [SignalReady; NotifyUpdateError]
                (Some "Appcast URL not specified.") last
  else
    match DownloadFile env url (GetAppcastDownloadFlags env k) with
    | inr what =>
        mkRunResult [SignalReady; NotifyUpdateError] (Some what) last
    | inl appcast_xml =>
        match Load (xml_engine env) appcast_xml empty_appcast last with
        | (Thrown what, _, last') =>
            mkRunResult [SignalReady; NotifyUpdateError] (Some what) last'
        | (Returned, appcast, last') =>
            let currentVersion := AppBuildVersion env in
            if CompareVersions currentVersion (Version appcast) >=? 0 then
              mkRunResult [SignalReady; WriteLastCheckTime (time_now env);
                           NotifyNoUpdates] None last'
            else if ShouldSkipUpdate env k appcast then
              mkRunResult [SignalReady; WriteLastCheckTime (time_now env);
                           NotifyNoUpdates] None last'
            else
              mkRunResult [SignalReady; WriteLastCheckTime (time_now env);
                           NotifyUpdateAvailable appcast] None last'
        end
    end.

Definition is_notification (e : Effect) : bool :=
  match e with
  | NotifyNoUpdates | NotifyUpdateAvailable _ | NotifyUpdateError => true
  | _ => false
  end.

(** Every start of an enclosure among the events. *)
Fixpoint all_enclosures (evs : list XML_Event) : list Attrs :=
  match evs with
  | [] => []
  | StartElement n attrs :: rest =>
      if (n =? NODE_ENCLOSURE)%string
      then attrs :: all_enclosures rest
      else all_enclosures rest
  | _ :: rest => all_enclosures rest
  end.

(** Collaborators for the examples: a feed at 1.0 and 2.0 behind the
    address, an engine that reads it, and version 1.0 installed. *)
Definition sample_collaborators : Collaborators :=
  mkCollaborators
    "http://example.com/appcast.xml"
    (fun _ _ => inl "<rss>...</rss>")
    (mkEngine true (fun _ => (feed_1_0_then_2_0, XML_STATUS_OK))
              (fun _ => 0) (fun _ => ""))
    1700000000
    "1.0"
    None
    1.

(** Collaborators whose feed holds no item. *)
Definition itemless_collaborators : Collaborators :=
  mkCollaborators
    "http://example.com/appcast.xml"
    (fun _ _ => inl "<rss/>")
    (mkEngine true
              (fun _ => ([StartElement "rss" []; EndElement "rss"],
                         XML_STATUS_OK))
              (fun _ => 0) (fun _ => ""))
    1700000000
    "1.0"
    None
    1.

(** The events of the document
    <rss><channel><item></item><title>x</title></channel></rss>:
    a title of the channel that comes after its item. *)
Definition channel_with_late_title : list XML_Event :=
  [StartElement "rss" []; StartElement NODE_CHANNEL [];
   StartElement NODE_ITEM []; EndElement NODE_ITEM;
   StartElement NODE_TITLE []; CharacterData "x"; EndElement NODE_TITLE;
   EndElement NODE_CHANNEL; EndElement "rss"].

Lemma CompareVersions_vectors (verA verB : string) :
  CompareVersions verA verB =
  compare_vectors (SplitVersionString verA) (SplitVersionString verB).
Proof. reflexivity. Qed.

Lemma compare_loop_shift (todo i : nat) (x y : string) (A B : list string) :
  compare_loop todo (S i) (x :: A) (y :: B) = compare_loop todo i A B.
Proof.
  revert i; induction todo as [|todo IH]; intros i; simpl; [reflexivity|].
  destruct (compare_parts (nth i A "") (nth i B "")); [reflexivity|].
  apply IH.
Qed.

Lemma compare_vectors_cons (a b : string) (A B : list string) :
  compare_vectors (a :: A) (b :: B) =
  match compare_parts a b with
  | Some r => r
  | None => compare_vectors A B
  end.
Proof.
  unfold compare_vectors; cbn [List.length Nat.min compare_loop nth].
  destruct (compare_parts a b) as [r|]; [reflexivity|].
  rewrite compare_loop_shift.
  destruct (compare_loop _ 0 A B); [reflexivity|].
  change (S (List.length A) =? S (List.length B))%nat
    with (List.length A =? List.length B)%nat.
  change (S (List.length B) <? S (List.length A))%nat
    with (List.length B <? List.length A)%nat.
  reflexivity.
Qed.

Lemma compare_vectors_lists (A B : list string) :
  compare_vectors A B = compare_lists A B.
Proof.
  revert B; induction A as [|a A IH]; intros [|b B].
  - reflexivity.
  - unfold compare_vectors; simpl; unfold extra_part.
    destruct (CharType_eqb _ _); reflexivity.
  - unfold compare_vectors; simpl; unfold extra_part.
    destruct (CharType_eqb _ _); reflexivity.
  - rewrite compare_vectors_cons; simpl.
    destruct (compare_parts a b); [reflexivity | apply IH].
Qed.

Lemma CompareVersions_lists (verA verB : string) :
  CompareVersions verA verB =
  compare_lists (SplitVersionString verA) (SplitVersionString verB).
Proof. rewrite CompareVersions_vectors; apply compare_vectors_lists. Qed.

(** Skipping the turns of the loop that do not decide. *)
Lemma compare_loop_skip (A B : list string) (k todo i : nat) :
  (forall j, (i <= j < i + k)%nat ->
     compare_parts (nth j A "") (nth j B "") = None) ->
  compare_loop (k + todo) i A B = compare_loop todo (i + k) A B.
Proof.
  revert i; induction k as [|k IH]; intros i H; simpl.
  - now rewrite Nat.add_0_r.
  - rewrite (H i) by lia.
    rewrite IH by (intros j Hj; apply H; lia).
    f_equal; lia.
Qed.

Lemma compare_loop_decides (A B : list string) (n i : nat) (r : Z) :
  (i < n)%nat ->
  undecided_before A B i ->
  compare_parts (nth i A "") (nth i B "") = Some r ->
  compare_loop n 0 A B = Some r.
Proof.
  intros Hi Hu Hr.
  replace n with (i + S (n - S i))%nat by lia.
  rewrite compare_loop_skip by (intros j Hj; apply Hu; lia).
  simpl; now rewrite Hr.
Qed.

Lemma compare_loop_exhausted (A B : list string) (n : nat) :
  undecided_before A B n -> compare_loop n 0 A B = None.
Proof.
  intros Hu.
  replace n with (n + 0)%nat at 1 by lia.
  rewrite compare_loop_skip by (intros j Hj; apply Hu; lia).
  reflexivity.
Qed.

(* ------------------------------------------------------------------ *)
(** ** The comparator is a total preorder *)

Ltac split_ltb :=
  repeat match goal with
  | |- context [(?x <? ?y)%N] => destruct (N.ltb_spec x y)
  | |- context [?x >? ?y] => rewrite (Z.gtb_ltb x y)
  | |- context [?x <? ?y] => destruct (Z.ltb_spec x y)
  | |- context [?x =? ?y] => destruct (Z.eqb_spec x y)
  end.

Lemma string_compare_range (a b : string) :
  -1 <= string_compare a b <= 1.
Proof.
  revert b; induction a as [|x a IH]; intros [|y b]; simpl; try lia.
  split_ltb; try lia; apply IH.
Qed.

Lemma string_compare_refl (a : string) : string_compare a a = 0.
Proof.
  induction a as [|x a IH]; simpl; [reflexivity|].
  split_ltb; try lia; exact IH.
Qed.

Lemma string_compare_antisym (a b : string) :
  string_compare b a = - string_compare a b.
Proof.
  revert b; induction a as [|x a IH]; intros [|y b]; simpl; try reflexivity.
  split_ltb; try lia; apply IH.
Qed.

Lemma string_compare_trans (a b c : string) :
  string_compare a b >= 0 -> string_compare b c >= 0 ->
  string_compare a c >= 0 /\
  (string_compare a b > 0 \/ string_compare b c > 0 -> string_compare a c > 0).
Proof.
  revert b c; induction a as [|x a IH]; intros [|y b] [|z c]; simpl;
    try lia.
  split_ltb; try lia; apply IH.
Qed.

Lemma compare_lists_heads (A B : list string) :
  compare_lists A B =
  if compare_ends (hd_error A) (hd_error B) =? 0
  then match A, B with
       | _ :: A', _ :: B' => compare_lists A' B'
       | _, _ => 0
       end
  else compare_ends (hd_error A) (hd_error B).
Proof.
  destruct A as [|a A], B as [|b B]; simpl; try reflexivity.
  - unfold extra_part; destruct (CharType_eqb _ _); reflexivity.
  - unfold extra_part; destruct (CharType_eqb _ _); reflexivity.
  - unfold compare_parts.
    destruct (ClassifyChar (front a)), (ClassifyChar (front b)); simpl;
      try reflexivity.
    + split_ltb; try reflexivity; lia.
    + destruct (Z.eqb_spec (string_compare a b) 0) as [E|E]; simpl.
      * reflexivity.
      * destruct (Z.eqb_spec (string_compare a b) 0); [contradiction|reflexivity].
Qed.

Ltac compare_ends_cases :=
  unfold compare_ends, compare_parts, extra_part;
  repeat match goal with
  | |- context [ClassifyChar (front ?a)] =>
      destruct (ClassifyChar (front a))
  end; simpl.

Lemma compare_ends_refl (x : option string) : compare_ends x x = 0.
Proof.
  destruct x as [a|]; [|reflexivity].
  compare_ends_cases; try reflexivity.
  - split_ltb; try reflexivity; lia.
  - rewrite string_compare_refl; reflexivity.
Qed.

Lemma compare_ends_antisym (x y : option string) :
  compare_ends y x = - compare_ends x y.
Proof.
  destruct x as [a|], y as [b|]; try reflexivity.
  - compare_ends_cases; try reflexivity.
    + split_ltb; try reflexivity; lia.
    + rewrite (string_compare_antisym a b).
      generalize (string_compare a b); intros s.
      split_ltb; simpl; lia.
  - simpl; lia.
Qed.

Ltac abstract_values :=
  repeat match goal with
  | |- context [atoi ?a] =>
      let v := fresh "v" in set (v := atoi a) in *; clearbody v
  | |- context [string_compare ?a ?b] =>
      let v := fresh "s" in
      pose proof (string_compare_range a b);
      set (v := string_compare a b) in *; clearbody v
  end.

Lemma compare_ends_trans (x y z : option string) :
  compare_ends x y >= 0 -> compare_ends y z >= 0 ->
  compare_ends x z >= 0 /\
  (compare_ends x y > 0 \/ compare_ends y z > 0 -> compare_ends x z > 0).
Proof.
  destruct x as [a|], y as [b|], z as [c|];
    try pose proof (string_compare_trans a b c);
    compare_ends_cases; try lia;
    abstract_values; split_ltb; simpl; lia.
Qed.

Lemma compare_ends_zero_shape (A B : list string) :
  compare_ends (hd_error A) (hd_error B) = 0 ->
  (A = [] /\ B = []) \/
  (exists a A' b B', A = a :: A' /\ B = b :: B').
Proof.
  destruct A as [|a A], B as [|b B]; simpl; unfold extra_part.
  - now left.
  - destruct (CharType_eqb _ _); lia.
  - destruct (CharType_eqb _ _); lia.
  - intros _; right; now exists a, A, b, B.
Qed.

Lemma compare_lists_refl (A : list string) : compare_lists A A = 0.
Proof.
  induction A as [|a A IH]; [reflexivity|].
  rewrite compare_lists_heads, compare_ends_refl; exact IH.
Qed.

Lemma compare_lists_antisym (A B : list string) :
  compare_lists B A = - compare_lists A B.
Proof.
  revert B; induction A as [|a A IH]; intros B;
    rewrite (compare_lists_heads B), (compare_lists_heads _ B),
            (compare_ends_antisym (hd_error _) (hd_error B)).
  - destruct (Z.eqb_spec (compare_ends (hd_error []) (hd_error B)) 0) as [E|E].
    + rewrite E; simpl; now destruct B.
    + destruct (Z.eqb_spec (- compare_ends (hd_error []) (hd_error B)) 0);
        [lia | reflexivity].
  - destruct (Z.eqb_spec (compare_ends (hd_error (a :: A)) (hd_error B)) 0)
      as [E|E].
    + rewrite E; simpl; destruct B as [|b B]; [reflexivity | apply IH].
    + destruct (Z.eqb_spec (- compare_ends (hd_error (a :: A)) (hd_error B)) 0);
        [lia | reflexivity].
Qed.

Lemma compare_lists_trans (A B C : list string) :
  compare_lists A B >= 0 -> compare_lists B C >= 0 ->
  compare_lists A C >= 0 /\
  (compare_lists A B > 0 \/ compare_lists B C > 0 -> compare_lists A C > 0).
Proof.
  revert B C; induction A as [|a A IH]; intros B C;
    rewrite (compare_lists_heads _ B), (compare_lists_heads B C),
            (compare_lists_heads _ C);
    match goal with
    | |- context [compare_ends (hd_error ?X) (hd_error B)] =>
        pose proof (compare_ends_trans (hd_error X) (hd_error B) (hd_error C))
          as Hfw;
        pose proof (compare_ends_trans (hd_error C) (hd_error B) (hd_error X))
          as Hbw;
        rewrite (compare_ends_antisym (hd_error B) (hd_error C)),
                (compare_ends_antisym (hd_error X) (hd_error B)),
                (compare_ends_antisym (hd_error X) (hd_error C)) in Hbw;
        pose proof (compare_ends_zero_shape X B) as HsAB;
        pose proof (compare_ends_zero_shape B C) as HsBC;
        destruct (Z.eqb_spec (compare_ends (hd_error X) (hd_error B)) 0)
          as [E1|E1];
        destruct (Z.eqb_spec (compare_ends (hd_error B) (hd_error C)) 0)
          as [E2|E2];
        destruct (Z.eqb_spec (compare_ends (hd_error X) (hd_error C)) 0)
          as [E3|E3]
    end; try lia.
  - destruct (HsAB E1) as [[_ ->]|(a' & A' & b & B' & HA & _)];
      [|discriminate].
    destruct (HsBC E2) as [[_ ->]|(b' & B'' & c & C' & HB' & _)];
      [simpl; lia | discriminate].
  - destruct (HsAB E1) as [[? ?]|(a' & A' & b & B' & HA & HB)];
      [discriminate|].
    destruct (HsBC E2) as [[? ?]|(b' & B'' & c & C' & HB' & HC)];
      [subst; discriminate|].
    subst; injection HA as <- <-; injection HB' as <- <-.
    apply IH.
Qed.

(* ------------------------------------------------------------------ *)
(** ** Properties of the comparator *)

(** C4: for all version strings [a], [b], [c]: [cmp(a,a) == 0],
    [cmp(a,b) == -cmp(b,a)], and [cmp(a,b) > 0] with [cmp(b,c) > 0] gives
    [cmp(a,c) > 0].  It holds for every string, so in particular for the
    well-formed dotted-numeric-with-suffix ones. *)
Theorem CompareVersions_consistent (a b c : string) :
  CompareVersions a a = 0 /\
  CompareVersions a b = - CompareVersions b a /\
  (CompareVersions a b > 0 -> CompareVersions b c > 0 ->
   CompareVersions a c > 0).
Proof.
  rewrite !CompareVersions_lists.
  split; [apply compare_lists_refl|].
  split; [rewrite (compare_lists_antisym (SplitVersionString b)); lia|].
  intros Hab Hbc.
  apply (compare_lists_trans _ (SplitVersionString b)); lia.
Qed.

Lemma CompareVersions_consistent_witness :
  CompareVersions "2.0" "1.5" > 0 /\
  CompareVersions "1.5" "1.5b3" > 0 /\
  CompareVersions "2.0" "1.5b3" > 0.
Proof.
  split; [reflexivity|].
  split; [reflexivity|].
  apply (proj2 (proj2 (CompareVersions_consistent "2.0" "1.5" "1.5b3")));
    reflexivity.
Defined.

Lemma nth_error_nth_default (l : list string) (i : nat) (x : string) :
  nth_error l i = Some x -> nth i l "" = x /\ (i < List.length l)%nat.
Proof.
  intros H; split.
  - now apply nth_error_nth.
  - apply nth_error_Some; congruence.
Qed.

Lemma compare_parts_classes (a b : string) :
  part_type a <> part_type b ->
  compare_parts a b =
  Some (if class_rank (part_type b) <? class_rank (part_type a)
        then 1 else -1).
Proof.
  unfold compare_parts, part_type.
  destruct (ClassifyChar (front a)), (ClassifyChar (front b)); simpl;
    intros H; try reflexivity; now contradiction H.
Qed.

(** C3: when the pairwise walk reaches a position where the two components
    differ in class, the comparison ends there, a Number or Period ranking
    above a String ("Other") component and a Number above a Period; when
    the walk exhausts the shorter vector undecided, the first extra
    component of the longer one decides: a String one makes the shorter
    version greater, a Number or Period one the longer.  The six sample
    comparisons follow. *)
Theorem CompareVersions_class_and_length (verA verB : string) :
  (forall i a b,
      undecided_before (SplitVersionString verA) (SplitVersionString verB) i ->
      nth_error (SplitVersionString verA) i = Some a ->
      nth_error (SplitVersionString verB) i = Some b ->
      part_type a <> part_type b ->
      CompareVersions verA verB =
      if class_rank (part_type b) <? class_rank (part_type a) then 1 else -1)
  /\
  (undecided_before (SplitVersionString verA) (SplitVersionString verB)
     (Nat.min (List.length (SplitVersionString verA))
              (List.length (SplitVersionString verB))) ->
   (forall x,
       nth_error (SplitVersionString verA)
                 (List.length (SplitVersionString verB)) = Some x ->
       CompareVersions verA verB =
       if CharType_eqb (part_type x) Type_String then -1 else 1) /\
   (forall x,
       nth_error (SplitVersionString verB)
                 (List.length (SplitVersionString verA)) = Some x ->
       CompareVersions verA verB =
       if CharType_eqb (part_type x) Type_String then 1 else -1))
  /\
  (CompareVersions "1.2.0" "1.2rc1" > 0 /\
   CompareVersions "1.2rc1" "1.2.0" < 0 /\
   CompareVersions "1.5" "1.5b3" > 0 /\
   CompareVersions "1.5.1" "1.5" > 0 /\
   CompareVersions "2.0" "2.0" = 0 /\
   CompareVersions "1.0" "1.0.0" < 0).
Proof.
  rewrite CompareVersions_vectors.
  set (A := SplitVersionString verA); set (B := SplitVersionString verB).
  split; [|split].
  - intros i a b Hu Ha Hb Hne.
    apply nth_error_nth_default in Ha, Hb.
    destruct Ha as [Ha HiA], Hb as [Hb HiB].
    assert (Hr : compare_parts (nth i A "") (nth i B "") =
                 Some (if class_rank (part_type b) <? class_rank (part_type a)
                       then 1 else -1))
      by (rewrite Ha, Hb; now apply compare_parts_classes).
    assert (Hlt : (i < Nat.min (List.length A) (List.length B))%nat) by lia.
    unfold compare_vectors.
    rewrite (compare_loop_decides A B _ i _ Hlt Hu Hr).
    reflexivity.
  - intros Hu; unfold compare_vectors.
    rewrite (compare_loop_exhausted A B _ Hu).
    split; intros x Hx; apply nth_error_nth_default in Hx;
      destruct Hx as [Hx Hlt].
    + replace (Nat.min (List.length A) (List.length B)) with (List.length B)
        by lia.
      destruct (Nat.eqb_spec (List.length A) (List.length B)); [lia|].
      destruct (Nat.ltb_spec (List.length B) (List.length A)); [|lia].
      rewrite Hx; unfold part_type.
      destruct (CharType_eqb _ _); reflexivity.
    + replace (Nat.min (List.length A) (List.length B)) with (List.length A)
        by lia.
      destruct (Nat.eqb_spec (List.length A) (List.length B)); [lia|].
      destruct (Nat.ltb_spec (List.length B) (List.length A)); [lia|].
      rewrite Hx; unfold part_type.
      destruct (CharType_eqb _ _); reflexivity.
  - repeat split; reflexivity.
Qed.

Lemma CompareVersions_class_and_length_witness :
  CompareVersions "1.2.0" "1.2rc1" = 1 /\ CompareVersions "1.5" "1.5b3" = 1.
Proof.
  split.
  - apply (proj1 (CompareVersions_class_and_length "1.2.0" "1.2rc1")
             3%nat "." "rc").
    + intros j Hj; destruct j as [|[|[|j]]]; [reflexivity ..|lia].
    + reflexivity.
    + reflexivity.
    + discriminate.
  - apply (proj2 (proj1 (proj2 (CompareVersions_class_and_length "1.5" "1.5b3"))
             ltac:(intros j Hj; destruct j as [|[|[|j]]];
                   [reflexivity ..|simpl in Hj; lia])) "b").
    reflexivity.
Defined.

(** *** Components are uniform runs *)

Lemma string_forall_app (p : ascii -> bool) (s t : string) :
  string_forall p (s ++ t) = string_forall p s && string_forall p t.
Proof.
  induction s as [|c s IH]; simpl; [reflexivity|].
  now rewrite IH, andb_assoc.
Qed.

Lemma CharType_eqb_eq (x y : CharType) : CharType_eqb x y = true <-> x = y.
Proof. destruct x, y; simpl; split; congruence. Qed.

Lemma CharType_eqb_refl (x : CharType) : CharType_eqb x x = true.
Proof. now destruct x. Qed.

Lemma uniform_part_single (c : ascii) :
  uniform_part (ClassifyChar c) (String c EmptyString).
Proof.
  split; [discriminate|]; simpl.
  now rewrite CharType_eqb_refl.
Qed.

Lemma uniform_part_type (t : CharType) (s : string) :
  uniform_part t s -> part_type s = t.
Proof.
  intros [Hne Hall]; destruct s as [|c s]; [now contradiction Hne|].
  simpl in Hall; apply andb_prop in Hall as [Hc _].
  now apply CharType_eqb_eq.
Qed.

Lemma split_loop_uniform (rest s : string) (prevType : CharType)
                         (vec : list string) :
  Forall (fun p => exists t, uniform_part t p) vec ->
  uniform_part prevType s ->
  Forall (fun p => exists t, uniform_part t p) (split_loop rest s prevType vec).
Proof.
  revert s prevType vec; induction rest as [|c rest IH];
    intros s prevType vec Hvec Hs; simpl.
  - apply Forall_app; split; [exact Hvec|].
    constructor; [now exists prevType | constructor].
  - destruct (negb (CharType_eqb prevType (ClassifyChar c))
              || CharType_eqb prevType Type_Period) eqn:Hnew.
    + apply IH; [|apply uniform_part_single].
      apply Forall_app; split; [exact Hvec|].
      constructor; [now exists prevType | constructor].
    + apply orb_false_elim in Hnew as [Hsame _].
      apply negb_false_iff, CharType_eqb_eq in Hsame.
      apply IH; [exact Hvec|].
      rewrite <- Hsame; destruct Hs as [Hne Hall]; split.
      * unfold push_char; destruct s; discriminate.
      * unfold push_char; rewrite string_forall_app, Hall; simpl.
        now rewrite Hsame, CharType_eqb_refl.
Qed.

Lemma SplitVersionString_uniform (version : string) :
  Forall (fun p => exists t, uniform_part t p) (SplitVersionString version).
Proof.
  destruct version as [|c rest]; [constructor|].
  apply split_loop_uniform; [constructor | apply uniform_part_single].
Qed.

Lemma SplitVersionString_part (version : string) (i : nat) (a : string) :
  nth_error (SplitVersionString version) i = Some a ->
  uniform_part (part_type a) a.
Proof.
  intros H; apply nth_error_In in H.
  pose proof (SplitVersionString_uniform version) as Hall.
  rewrite Forall_forall in Hall.
  destruct (Hall a H) as [t Ht].
  now rewrite (uniform_part_type t a Ht).
Qed.

(** *** [atoi] on a Number component *)

Lemma ClassifyChar_number (c : ascii) :
  CharType_eqb (ClassifyChar c) Type_Number = true -> is_digit c = true.
Proof.
  unfold ClassifyChar.
  destruct (Ascii.eqb c "."); [discriminate|].
  destruct (is_digit c); [reflexivity | discriminate].
Qed.

Lemma number_part_digits (a : string) :
  uniform_part Type_Number a -> a <> "" /\ string_forall is_digit a = true.
Proof.
  intros [Hne Hall]; split; [exact Hne|]; clear Hne.
  induction a as [|c a IH]; [reflexivity|].
  simpl in *; apply andb_prop in Hall as [Hc Ha].
  now rewrite (ClassifyChar_number c Hc), IH.
Qed.

Lemma digit_value_range (c : ascii) :
  is_digit c = true -> 0 <= digit_value c <= 9.
Proof.
  unfold is_digit, digit_value; intros H.
  apply andb_prop in H as [H1 H2].
  apply N.leb_le in H1, H2; lia.
Qed.

Lemma dec_value_nonneg (s : string) :
  string_forall is_digit s = true -> 0 <= dec_value s.
Proof.
  induction s as [|c s IH]; simpl; [lia|].
  intros H; apply andb_prop in H as [Hc Hs].
  pose proof (digit_value_range c Hc).
  specialize (IH Hs).
  assert (0 < 10 ^ Z.of_nat (String.length s)) by (apply Z.pow_pos_nonneg; lia).
  nia.
Qed.

Lemma read_digits_value (s : string) (acc : Z) :
  string_forall is_digit s = true ->
  read_digits s acc = acc * 10 ^ Z.of_nat (String.length s) + dec_value s.
Proof.
  revert acc; induction s as [|c s IH]; intros acc H.
  - simpl; lia.
  - cbn [string_forall] in H; apply andb_prop in H as [Hc Hs].
    cbn [read_digits dec_value String.length]; rewrite Hc, (IH _ Hs).
    rewrite Nat2Z.inj_succ, Z.pow_succ_r by lia.
    ring.
Qed.

Lemma atoi_digit_first (c : ascii) (s : string) :
  is_digit c = true ->
  atoi (String c s) = clamp_int (read_digits (String c s) 0).
Proof.
  intros Hd; unfold atoi; cbn [skip_spaces].
  destruct c as [b0 b1 b2 b3 b4 b5 b6 b7].
  destruct b0, b1, b2, b3, b4, b5, b6, b7;
    vm_compute in Hd; try discriminate Hd; reflexivity.
Qed.

Lemma atoi_digits (s : string) :
  s <> "" -> string_forall is_digit s = true ->
  atoi s = clamp_int (dec_value s).
Proof.
  intros Hne Hall; destruct s as [|c s]; [now contradiction Hne|].
  pose proof Hall as Hc; cbn [string_forall] in Hc.
  apply andb_prop in Hc as [Hc _].
  rewrite (atoi_digit_first c s Hc), (read_digits_value _ 0 Hall).
  f_equal; lia.
Qed.

Lemma atoi_number_part (a : string) :
  uniform_part Type_Number a -> dec_value a <= INT_MAX ->
  atoi a = dec_value a.
Proof.
  intros Hu Hmax; destruct (number_part_digits a Hu) as [Hne Hall].
  rewrite (atoi_digits a Hne Hall).
  pose proof (dec_value_nonneg a Hall).
  unfold clamp_int, INT_MIN, INT_MAX in *.
  split_ltb; lia.
Qed.

Lemma compare_parts_numbers (a b : string) :
  part_type a = Type_Number -> part_type b = Type_Number ->
  compare_parts a b =
  if atoi a >? atoi b then Some 1
  else if atoi a <? atoi b then Some (-1)
  else None.
Proof.
  unfold compare_parts, part_type; intros -> ->; reflexivity.
Qed.

(** C5, as the code has it: at every position of the pairwise walk at which
    both components are Number-class, both components are runs of decimal
    digits, and when their values fit an [int] the turn yields the sign of
    the exact comparison of the two base-10 integers, equality going on to
    the next pair; so if the walk reaches that position undecided, a strict
    inequality there is the result of [CompareVersions]. *)
Theorem number_parts_compare_in_range
        (verA verB : string) (i : nat) (a b : string) :
  nth_error (SplitVersionString verA) i = Some a ->
  nth_error (SplitVersionString verB) i = Some b ->
  part_type a = Type_Number ->
  part_type b = Type_Number ->
  dec_value a <= INT_MAX ->
  dec_value b <= INT_MAX ->
  string_forall is_digit a = true /\
  string_forall is_digit b = true /\
  compare_parts a b = exact_sign a b /\
  (undecided_before (SplitVersionString verA) (SplitVersionString verB) i ->
   forall r, exact_sign a b = Some r -> CompareVersions verA verB = r).
Proof.
  intros Ha Hb Hta Htb Hra Hrb.
  pose proof (SplitVersionString_part verA i a Ha) as Hua.
  pose proof (SplitVersionString_part verB i b Hb) as Hub.
  rewrite Hta in Hua; rewrite Htb in Hub.
  assert (Hcmp : compare_parts a b = exact_sign a b).
  { rewrite (compare_parts_numbers a b Hta Htb).
    rewrite (atoi_number_part a Hua Hra), (atoi_number_part b Hub Hrb).
    unfold exact_sign.
    destruct (Z.compare_spec (dec_value a) (dec_value b));
      split_ltb; try reflexivity; lia. }
  split; [apply (number_part_digits a Hua)|].
  split; [apply (number_part_digits b Hub)|].
  split; [exact Hcmp|].
  intros Hu r Hr.
  apply nth_error_nth_default in Ha, Hb.
  destruct Ha as [Ha HiA], Hb as [Hb HiB].
  assert (Hlt : (i < Nat.min (List.length (SplitVersionString verA))
                             (List.length (SplitVersionString verB)))%nat)
    by lia.
  rewrite CompareVersions_vectors; unfold compare_vectors.
  rewrite (compare_loop_decides _ _ _ i r Hlt Hu); [reflexivity|].
  now rewrite Ha, Hb, Hcmp.
Qed.

Lemma number_parts_compare_in_range_witness :
  compare_parts "10" "9" = Some 1 /\ CompareVersions "1.10" "1.9" = 1.
Proof.
  pose proof (number_parts_compare_in_range "1.10" "1.9" 2%nat "10" "9"
                eq_refl eq_refl eq_refl eq_refl
                ltac:(vm_compute; discriminate)
                ltac:(vm_compute; discriminate)) as (_ & _ & Hc & Hw).
  split; [exact Hc|].
  apply Hw; [|reflexivity].
  intros j Hj; destruct j as [|[|j]]; [reflexivity ..|lia].
Defined.

(** C5 as stated fails beyond the range of [int]: 4294967296 and
    8589934592 are the Number components at position 0 of their version
    strings, the second is the larger integer, and the walk takes them for
    equal. *)
Lemma number_parts_compare_overflow :
  nth_error (SplitVersionString "4294967296") 0 = Some "4294967296" /\
  nth_error (SplitVersionString "8589934592") 0 = Some "8589934592" /\
  part_type "4294967296" = Type_Number /\
  part_type "8589934592" = Type_Number /\
  exact_sign "4294967296" "8589934592" = Some (-1) /\
  compare_parts "4294967296" "8589934592" = None /\
  compare_parts "4294967296" "8589934592"
    <> exact_sign "4294967296" "8589934592" /\
  CompareVersions "4294967296" "8589934592" = 0.
Proof.
  repeat split; try reflexivity.
  vm_compute; discriminate.
Qed.

(* ------------------------------------------------------------------ *)
(** ** The handlers, by kind of element *)

Lemma node_kind_cases (name : string) :
  match node_kind name with
  | KChannel => name = NODE_CHANNEL
  | KItem => name = NODE_ITEM
  | KRelnotes => name = NODE_RELNOTES
  | KTitle => name = NODE_TITLE
  | KDescription => name = NODE_DESCRIPTION
  | KEnclosure => name = NODE_ENCLOSURE
  | KOther =>
      name <> NODE_CHANNEL /\ name <> NODE_ITEM /\ name <> NODE_RELNOTES /\
      name <> NODE_TITLE /\ name <> NODE_DESCRIPTION /\ name <> NODE_ENCLOSURE
  end.
Proof.
  unfold node_kind.
  destruct (String.eqb_spec name NODE_CHANNEL); [assumption|].
  destruct (String.eqb_spec name NODE_ITEM); [assumption|].
  destruct (String.eqb_spec name NODE_RELNOTES); [assumption|].
  destruct (String.eqb_spec name NODE_TITLE); [assumption|].
  destruct (String.eqb_spec name NODE_DESCRIPTION); [assumption|].
  destruct (String.eqb_spec name NODE_ENCLOSURE); [assumption|].
  repeat split; assumption.
Qed.

Lemma eqb_neq (x y : string) : x <> y -> (x =? y)%string = false.
Proof. intros H; now destruct (String.eqb_spec x y). Qed.

(** Settles the six name tests of a handler once the kind is known. *)
Ltac by_kind name :=
  pose proof (node_kind_cases name) as Hkind;
  destruct (node_kind name);
  [ subst name | subst name | subst name | subst name | subst name
  | subst name
  | destruct Hkind as (Hk1 & Hk2 & Hk3 & Hk4 & Hk5 & Hk6);
    rewrite ?(eqb_neq _ _ Hk1), ?(eqb_neq _ _ Hk2), ?(eqb_neq _ _ Hk3),
            ?(eqb_neq _ _ Hk4), ?(eqb_neq _ _ Hk5), ?(eqb_neq _ _ Hk6) ];
  cbn [andb]; rewrite ?andb_false_r; cbn [andb].

Lemma OnStartElement_by_kind (name : string) (attrs : Attrs) (st : ParseState) :
  OnStartElement name attrs st =
  let c := ctxt st in
  match node_kind name with
  | KChannel =>
      mkParseState (set_in_channel (in_channel c + 1) c) (last_version st)
  | KItem =>
      if nonzero (in_channel c)
      then mkParseState (set_in_item (in_item c + 1) c) (last_version st)
      else st
  | KRelnotes =>
      if nonzero (in_item c)
      then mkParseState (set_in_relnotes (in_relnotes c + 1) c)
                        (last_version st)
      else st
  | KTitle =>
      if nonzero (in_item c)
      then mkParseState (set_in_title (in_title c + 1) c) (last_version st)
      else st
  | KDescription =>
      if nonzero (in_item c)
      then mkParseState (set_in_description (in_description c + 1) c)
                        (last_version st)
      else st
  | KEnclosure => if nonzero (in_item c) then enclosure attrs st else st
  | KOther => st
  end.
Proof.
  unfold OnStartElement; by_kind name;
    try reflexivity;
    change (NODE_ITEM =? NODE_CHANNEL)%string with false;
    change (NODE_ITEM =? NODE_ITEM)%string with true;
    change (NODE_RELNOTES =? NODE_CHANNEL)%string with false;
    change (NODE_RELNOTES =? NODE_ITEM)%string with false;
    change (NODE_RELNOTES =? NODE_RELNOTES)%string with true;
    change (NODE_TITLE =? NODE_CHANNEL)%string with false;
    change (NODE_TITLE =? NODE_ITEM)%string with false;
    change (NODE_TITLE =? NODE_RELNOTES)%string with false;
    change (NODE_TITLE =? NODE_TITLE)%string with true;
    change (NODE_DESCRIPTION =? NODE_CHANNEL)%string with false;
    change (NODE_DESCRIPTION =? NODE_ITEM)%string with false;
    change (NODE_DESCRIPTION =? NODE_RELNOTES)%string with false;
    change (NODE_DESCRIPTION =? NODE_TITLE)%string with false;
    change (NODE_DESCRIPTION =? NODE_DESCRIPTION)%string with true;
    change (NODE_ENCLOSURE =? NODE_CHANNEL)%string with false;
    change (NODE_ENCLOSURE =? NODE_ITEM)%string with false;
    change (NODE_ENCLOSURE =? NODE_RELNOTES)%string with false;
    change (NODE_ENCLOSURE =? NODE_TITLE)%string with false;
    change (NODE_ENCLOSURE =? NODE_DESCRIPTION)%string with false;
    change (NODE_ENCLOSURE =? NODE_ENCLOSURE)%string with true;
    cbn [andb]; rewrite ?andb_false_r, ?andb_true_r; cbn [andb];
    cbv zeta;
    repeat match goal with
    | |- context [nonzero ?x] => destruct (nonzero x)
    end; reflexivity.
Qed.

Lemma OnEndElement_by_kind (name : string) (st : ParseState) :
  OnEndElement name st =
  let c := ctxt st in
  match node_kind name with
  | KChannel =>
      mkParseState (set_in_channel (in_channel c - 1) c) (last_version st)
  | KRelnotes =>
      if nonzero (in_item c)
      then mkParseState (set_in_relnotes (in_relnotes c - 1) c)
                        (last_version st)
      else st
  | KTitle =>
      if nonzero (in_item c)
      then mkParseState (set_in_title (in_title c - 1) c) (last_version st)
      else st
  | KDescription =>
      if nonzero (in_item c)
      then mkParseState (set_in_description (in_description c - 1) c)
                        (last_version st)
      else st
  | KItem | KEnclosure | KOther => st
  end.
Proof.
  unfold OnEndElement; by_kind name;
    change (NODE_CHANNEL =? NODE_RELNOTES)%string with false;
    change (NODE_CHANNEL =? NODE_TITLE)%string with false;
    change (NODE_CHANNEL =? NODE_DESCRIPTION)%string with false;
    change (NODE_CHANNEL =? NODE_ITEM)%string with false;
    change (NODE_CHANNEL =? NODE_CHANNEL)%string with true;
    change (NODE_ITEM =? NODE_RELNOTES)%string with false;
    change (NODE_ITEM =? NODE_TITLE)%string with false;
    change (NODE_ITEM =? NODE_DESCRIPTION)%string with false;
    change (NODE_ITEM =? NODE_ITEM)%string with true;
    change (NODE_ITEM =? NODE_CHANNEL)%string with false;
    change (NODE_RELNOTES =? NODE_RELNOTES)%string with true;
    change (NODE_TITLE =? NODE_RELNOTES)%string with false;
    change (NODE_TITLE =? NODE_TITLE)%string with true;
    change (NODE_DESCRIPTION =? NODE_RELNOTES)%string with false;
    change (NODE_DESCRIPTION =? NODE_TITLE)%string with false;
    change (NODE_DESCRIPTION =? NODE_DESCRIPTION)%string with true;
    change (NODE_ENCLOSURE =? NODE_RELNOTES)%string with false;
    change (NODE_ENCLOSURE =? NODE_TITLE)%string with false;
    change (NODE_ENCLOSURE =? NODE_DESCRIPTION)%string with false;
    change (NODE_ENCLOSURE =? NODE_ITEM)%string with false;
    change (NODE_ENCLOSURE =? NODE_CHANNEL)%string with false;
    cbn [andb]; rewrite ?andb_false_r, ?andb_true_r; cbn [andb];
    cbv zeta;
    repeat match goal with
    | |- context [nonzero ?x] => destruct (nonzero x)
    end; reflexivity.
Qed.

(* ------------------------------------------------------------------ *)
(** ** The enclosure selection rule *)

Lemma CompareVersions_flip (a b : string) :
  CompareVersions b a = - CompareVersions a b.
Proof. rewrite !CompareVersions_lists; apply compare_lists_antisym. Qed.

Lemma CompareVersions_lt_le_trans (a b c : string) :
  CompareVersions a b <= 0 -> CompareVersions b c < 0 ->
  CompareVersions a c < 0.
Proof.
  rewrite (CompareVersions_flip b a), (CompareVersions_flip c b),
          (CompareVersions_flip c a).
  rewrite !CompareVersions_lists; intros H1 H2.
  pose proof (compare_lists_trans (SplitVersionString c)
                (SplitVersionString b) (SplitVersionString a)).
  lia.
Qed.

Lemma CompareVersions_lt_trans (a b c : string) :
  CompareVersions a b < 0 -> CompareVersions b c < 0 ->
  CompareVersions a c < 0.
Proof. intros H1 H2; apply (CompareVersions_lt_le_trans a b c); lia. Qed.

Lemma enclosure_check_spec (last : string) (attrs : Attrs) (go : Z) :
  enclosure_check last attrs go = 1 <->
  go = 1 \/ exists v, In (ATTR_VERSION, v) attrs /\ CompareVersions last v < 0.
Proof.
  revert go; induction attrs as [|[n v] rest IH]; intros go; simpl.
  - split; [now left | intros [H|(v & [] & _)]; exact H].
  - rewrite IH; clear IH.
    destruct (String.eqb_spec n ATTR_VERSION) as [->|Hn].
    + destruct (Z.ltb_spec (CompareVersions last v) 0) as [Hlt|Hge].
      * split; [|now left].
        intros _; right; exists v; split; [now left | exact Hlt].
      * split.
        -- intros [H|(w & Hin & Hw)]; [now left|].
           right; exists w; split; [now right | exact Hw].
        -- intros [H|(w & [Heq|Hin] & Hw)]; [now left| |].
           ++ injection Heq as <-; lia.
           ++ right; now exists w.
    + split.
      * intros [H|(w & Hin & Hw)]; [now left|].
        right; exists w; split; [now right | exact Hw].
      * intros [H|(w & [Heq|Hin] & Hw)]; [now left| |].
        -- injection Heq as Heq _; now contradiction Hn.
        -- right; now exists w.
Qed.

Lemma opt_or_attr_value_cons (name n v : string) (rest : Attrs) (d : string) :
  opt_or (attr_value name ((n, v) :: rest)) d =
  opt_or (attr_value name rest) (if (n =? name)%string then v else d).
Proof.
  simpl; destruct (attr_value name rest); [reflexivity|].
  now destruct (n =? name)%string.
Qed.

Lemma enclosure_copy_spec (attrs : Attrs) (a : Appcast) (last : string) :
  enclosure_copy attrs a last =
  (mkAppcast (opt_or (attr_value ATTR_VERSION attrs) (Version a))
             (opt_or (attr_value ATTR_SHORTVERSION attrs) (ShortVersionString a))
             (opt_or (attr_value ATTR_URL attrs) (DownloadURL a))
             (ReleaseNotesURL a) (Title a) (Description a),
   opt_or (attr_value ATTR_VERSION attrs) last).
Proof.
  revert a last; induction attrs as [|[n v] rest IH]; intros a last.
  - now destruct a.
  - rewrite !opt_or_attr_value_cons; cbn [enclosure_copy].
    destruct (String.eqb_spec n ATTR_URL) as [->|H1];
      [rewrite IH; reflexivity|].
    destruct (String.eqb_spec n ATTR_VERSION) as [->|H2];
      [rewrite IH; reflexivity|].
    destruct (String.eqb_spec n ATTR_SHORTVERSION) as [->|H3];
      [rewrite IH; reflexivity|].
    apply IH.
Qed.

Lemma length_positive (s : string) :
  (0 <? Z.of_nat (String.length s)) = negb (s =? "")%string.
Proof. now destruct s. Qed.

Lemma newer_than_iff (last : string) (attrs : Attrs) :
  newer_than last attrs <->
  exists v, In (ATTR_VERSION, v) attrs /\ CompareVersions last v < 0.
Proof.
  unfold newer_than; split; intros (v & Hin & Hv); exists v;
    (split; [exact Hin|]); rewrite CompareVersions_flip in Hv; lia.
Qed.

Lemma enclosure_accepts (attrs : Attrs) (st : ParseState) :
  last_version st = "" \/ newer_than (last_version st) attrs ->
  enclosure attrs st = accepted attrs st.
Proof.
  intros H; unfold enclosure.
  rewrite length_positive.
  assert (Hgo : (if negb (last_version st =? "")%string
                 then enclosure_check (last_version st) attrs 0
                 else 1) = 1).
  { destruct (String.eqb_spec (last_version st) "") as [E|E]; [reflexivity|].
    simpl; apply enclosure_check_spec; right.
    destruct H as [H|H]; [now contradiction E | now apply newer_than_iff]. }
  rewrite Hgo, enclosure_copy_spec; reflexivity.
Qed.

Lemma enclosure_check_range (last : string) (attrs : Attrs) (go : Z) :
  go = 0 \/ go = 1 ->
  enclosure_check last attrs go = 0 \/ enclosure_check last attrs go = 1.
Proof.
  revert go; induction attrs as [|[n v] rest IH]; intros go H; simpl;
    [exact H|].
  apply IH.
  destruct (n =? ATTR_VERSION)%string; [|exact H].
  destruct (CompareVersions last v <? 0); [now right | exact H].
Qed.

Lemma enclosure_rejects (attrs : Attrs) (st : ParseState) :
  last_version st <> "" -> ~ newer_than (last_version st) attrs ->
  enclosure attrs st = st.
Proof.
  intros Hne Hnot; unfold enclosure.
  rewrite length_positive, (eqb_neq _ _ Hne); simpl.
  destruct (enclosure_check_range (last_version st) attrs 0 (or_introl eq_refl))
    as [E|E]; rewrite E; [reflexivity|].
  apply enclosure_check_spec in E as [E|E]; [discriminate|].
  now apply newer_than_iff in E.
Qed.

Lemma OnStartElement_enclosure (attrs : Attrs) (st : ParseState) :
  in_item (ctxt st) <> 0 ->
  OnStartElement NODE_ENCLOSURE attrs st = enclosure attrs st.
Proof.
  intros H; rewrite OnStartElement_by_kind.
  change (node_kind NODE_ENCLOSURE) with KEnclosure; cbv zeta.
  unfold nonzero; now destruct (Z.eqb_spec (in_item (ctxt st)) 0).
Qed.

(** C1: for every enclosure start-element event inside an item (the
    handler's test: [in_item] is non-zero): with an empty
    last-seen-version the enclosure is accepted unconditionally, its
    [url], [sparkle:version] (also into the last-seen-version) and
    [sparkle:shortVersionString] attributes copied each on its own and only
    if present; with a non-empty last-seen-version the attributes are copied
    only when its [sparkle:version] attribute compares strictly greater than
    the last-seen-version, and otherwise nothing at all changes. *)
Theorem enclosure_selection_rule (attrs : Attrs) (st : ParseState) :
  in_item (ctxt st) <> 0 ->
  (last_version st = "" ->
   OnStartElement NODE_ENCLOSURE attrs st = accepted attrs st) /\
  (last_version st <> "" -> newer_than (last_version st) attrs ->
   OnStartElement NODE_ENCLOSURE attrs st = accepted attrs st) /\
  (last_version st <> "" -> ~ newer_than (last_version st) attrs ->
   OnStartElement NODE_ENCLOSURE attrs st = st).
Proof.
  intros Hitem; rewrite (OnStartElement_enclosure attrs st Hitem).
  split; [|split].
  - intros H; apply enclosure_accepts; now left.
  - intros _ H; apply enclosure_accepts; now right.
  - apply enclosure_rejects.
Qed.

Lemma enclosure_selection_rule_witness :
  OnStartElement NODE_ENCLOSURE enclosure_2_0 (inside_item empty_appcast "1.0")
  = accepted enclosure_2_0 (inside_item empty_appcast "1.0").
Proof.
  apply (proj1 (proj2 (enclosure_selection_rule
                         enclosure_2_0 (inside_item empty_appcast "1.0")
                         ltac:(simpl; lia)))).
  - discriminate.
  - exists "2.0"; split; [right; left; reflexivity | reflexivity].
Defined.

(** *** Reading an attribute *)

Lemma attr_value_none (name : string) (attrs : Attrs) :
  attr_value name attrs = None <-> forall v, ~ In (name, v) attrs.
Proof.
  induction attrs as [|[n v] rest IH]; simpl.
  - split; [intros _ v [] | reflexivity].
  - destruct (attr_value name rest) as [w|].
    + split; [discriminate|].
      intros H; destruct IH as [_ IH].
      assert (Hrest : forall v0, ~ In (name, v0) rest)
        by (intros v0 Hin; apply (H v0); now right).
      specialize (IH Hrest); discriminate.
    + destruct (String.eqb_spec n name) as [->|Hn].
      * split; [discriminate|].
        intros H; exfalso; apply (H v); now left.
      * split; [|reflexivity].
        intros _ w [Heq|Hin].
        -- injection Heq as Heq _; now contradiction Hn.
        -- destruct IH as [IH _]; now apply (IH eq_refl w).
Qed.

Lemma attr_value_in (name : string) (attrs : Attrs) (v : string) :
  attr_value name attrs = Some v -> In (name, v) attrs.
Proof.
  induction attrs as [|[n w] rest IH]; simpl; [discriminate|].
  destruct (attr_value name rest) as [x|].
  - intros H; right; now apply IH.
  - destruct (String.eqb_spec n name) as [->|Hn]; [|discriminate].
    intros H; injection H as ->; now left.
Qed.

(** When the element has one value for [name], [attr_value] is that one. *)
Lemma attr_value_unique (name : string) (attrs : Attrs) (v : string) :
  (forall w, In (name, w) attrs <-> w = v) ->
  attr_value name attrs = Some v.
Proof.
  intros H.
  destruct (attr_value name attrs) as [w|] eqn:E.
  - apply attr_value_in, H in E; now subst.
  - exfalso; apply (proj1 (attr_value_none name attrs) E v).
    now apply H.
Qed.

Lemma versionless_not_newer (last : string) (attrs : Attrs) :
  versionless attrs -> ~ newer_than last attrs.
Proof. intros H (v & Hin & _); exact (H v Hin). Qed.

Lemma OnStartElement_enclosure_counters (attrs : Attrs) (st : ParseState) :
  let st' := OnStartElement NODE_ENCLOSURE attrs st in
  in_channel (ctxt st') = in_channel (ctxt st) /\
  in_item (ctxt st') = in_item (ctxt st) /\
  in_relnotes (ctxt st') = in_relnotes (ctxt st) /\
  in_title (ctxt st') = in_title (ctxt st) /\
  in_description (ctxt st') = in_description (ctxt st).
Proof.
  rewrite OnStartElement_by_kind.
  change (node_kind NODE_ENCLOSURE) with KEnclosure; cbv zeta.
  destruct (nonzero (in_item (ctxt st))); [|now repeat split].
  unfold enclosure.
  destruct (_ =? 1); [|now repeat split].
  destruct (enclosure_copy _ _ _); now repeat split.
Qed.

Lemma versionless_run (encs : list Attrs) (st : ParseState) :
  in_item (ctxt st) <> 0 -> last_version st = "" ->
  Forall versionless encs ->
  in_item (ctxt (run_events (enclosure_events encs) st)) <> 0 /\
  last_version (run_events (enclosure_events encs) st) = "".
Proof.
  revert st; induction encs as [|e encs IH]; intros st Hitem Hlast Hall.
  - now split.
  - inversion Hall as [|? ? He Hrest]; subst.
    cbn [enclosure_events map run_events fold_left handle].
    apply IH; [| |exact Hrest].
    + now rewrite (proj1 (proj2 (OnStartElement_enclosure_counters e st))).
    + rewrite (OnStartElement_enclosure e st Hitem).
      rewrite enclosure_accepts by now left.
      cbn [accepted last_version].
      now rewrite (proj2 (attr_value_none ATTR_VERSION e) He).
Qed.

(** C9: for every enclosure event without a [sparkle:version] attribute:
    when the last-seen-version is non-empty the enclosure is rejected and
    nothing changes; when it is empty the enclosure is accepted, its [url]
    and [sparkle:shortVersionString] copied if present, and the
    last-seen-version stays empty, so that every later version-less
    enclosure is accepted too and one that has a [url] overwrites
    DownloadURL. *)
Theorem versionless_enclosure (attrs : Attrs) (st : ParseState) :
  in_item (ctxt st) <> 0 ->
  versionless attrs ->
  (last_version st <> "" -> OnStartElement NODE_ENCLOSURE attrs st = st) /\
  (last_version st = "" ->
   let st' := OnStartElement NODE_ENCLOSURE attrs st in
   last_version st' = "" /\
   Version (appcast (ctxt st')) = Version (appcast (ctxt st)) /\
   DownloadURL (appcast (ctxt st')) =
     opt_or (attr_value ATTR_URL attrs) (DownloadURL (appcast (ctxt st))) /\
   ShortVersionString (appcast (ctxt st')) =
     opt_or (attr_value ATTR_SHORTVERSION attrs)
            (ShortVersionString (appcast (ctxt st))) /\
   forall (later : list Attrs) (attrs2 : Attrs) (u : string),
     Forall versionless later -> versionless attrs2 ->
     attr_value ATTR_URL attrs2 = Some u ->
     let st'' := run_events (enclosure_events (later ++ [attrs2])) st' in
     last_version st'' = "" /\ DownloadURL (appcast (ctxt st'')) = u).
Proof.
  intros Hitem Hv; split.
  - intros Hlast; rewrite (OnStartElement_enclosure attrs st Hitem).
    apply enclosure_rejects; [exact Hlast | now apply versionless_not_newer].
  - intros Hlast.
    pose proof (versionless_run [attrs] st Hitem Hlast
                  (Forall_cons _ Hv (Forall_nil _))) as [Hitem' Hlast'].
    cbn [enclosure_events map run_events fold_left handle] in Hitem', Hlast'.
    cbv zeta; split; [exact Hlast'|].
    rewrite (OnStartElement_enclosure attrs st Hitem) in *.
    rewrite enclosure_accepts in * by now left.
    pose proof (proj2 (attr_value_none ATTR_VERSION attrs) Hv) as Hnone.
    split; [unfold accepted; simpl; now rewrite Hnone|].
    split; [reflexivity|].
    split; [reflexivity|].
    intros later attrs2 u Hlater Hv2 Hu.
    assert (Hall : Forall versionless (later ++ [attrs2]))
      by (apply Forall_app; split; [assumption | now constructor]).
    split; [apply (versionless_run _ _ Hitem' Hlast' Hall)|].
    unfold enclosure_events, run_events.
    rewrite map_app, fold_left_app.
    fold (enclosure_events later).
    fold (run_events (enclosure_events later) (accepted attrs st)).
    pose proof (versionless_run later _ Hitem' Hlast' Hlater) as [Hi Hl].
    cbn [map fold_left handle].
    rewrite (OnStartElement_enclosure attrs2 _ Hi).
    rewrite enclosure_accepts by now left.
    unfold accepted at 1; simpl.
    now rewrite Hu.
Qed.

Lemma versionless_enclosure_witness :
  let st' := OnStartElement NODE_ENCLOSURE enclosure_plain
               (inside_item empty_appcast "") in
  last_version st' = "" /\
  DownloadURL (appcast (ctxt st')) = "http://example.com/app.exe".
Proof.
  pose proof (proj2 (versionless_enclosure
                       enclosure_plain (inside_item empty_appcast "")
                       ltac:(simpl; lia)
                       ltac:(intros v [H|[]]; discriminate H))
                    eq_refl) as (Hl & _ & Hu & _).
  split; [exact Hl | exact Hu].
Defined.

(* ------------------------------------------------------------------ *)
(** ** The highest enclosure *)

Lemma enclosure_events_counters (encs : list Attrs) (st : ParseState) :
  in_item (ctxt (run_events (enclosure_events encs) st)) = in_item (ctxt st).
Proof.
  revert st; induction encs as [|e encs IH]; intros st; [reflexivity|].
  cbn [enclosure_events map run_events fold_left handle].
  etransitivity; [apply IH|].
  apply (OnStartElement_enclosure_counters e st).
Qed.

Lemma run_events_app (p q : list XML_Event) (st : ParseState) :
  run_events (p ++ q) st = run_events q (run_events p st).
Proof. apply fold_left_app. Qed.

Lemma enclosure_events_app_one (p : list Attrs) (e : Attrs) (st : ParseState) :
  run_events (enclosure_events (p ++ [e])) st =
  OnStartElement NODE_ENCLOSURE e (run_events (enclosure_events p) st).
Proof.
  unfold enclosure_events; rewrite map_app, run_events_app; reflexivity.
Qed.

Lemma versioned_version_of (e : Attrs) (v : string) :
  carries_version e v ->
  attr_value ATTR_VERSION e = Some v /\ version_of e = v.
Proof.
  intros H; pose proof (attr_value_unique ATTR_VERSION e v H) as E.
  unfold version_of; now rewrite E.
Qed.

Lemma versioned_newer (last : string) (e : Attrs) (v : string) :
  carries_version e v ->
  newer_than last e <-> CompareVersions last v < 0.
Proof.
  intros H; rewrite newer_than_iff; split.
  - intros (w & Hin & Hw); apply H in Hin; now subst.
  - intros Hlt; exists v; split; [now apply H | exact Hlt].
Qed.

(** One versioned enclosure met with a non-empty last-seen-version. *)
Lemma versioned_step (e : Attrs) (st : ParseState) :
  in_item (ctxt st) <> 0 -> last_version st <> "" -> versioned e ->
  (CompareVersions (last_version st) (version_of e) < 0 /\
   OnStartElement NODE_ENCLOSURE e st = accepted e st) \/
  (CompareVersions (version_of e) (last_version st) <= 0 /\
   OnStartElement NODE_ENCLOSURE e st = st).
Proof.
  intros Hitem Hlast (v & Hv & Hc).
  destruct (versioned_version_of e v Hc) as [_ ->].
  rewrite (OnStartElement_enclosure e st Hitem).
  destruct (Z.ltb_spec (CompareVersions (last_version st) v) 0) as [Hlt|Hge].
  - left; split; [exact Hlt|].
    apply enclosure_accepts; right; now apply (versioned_newer _ e v Hc).
  - right; split; [rewrite CompareVersions_flip; lia|].
    apply enclosure_rejects; [exact Hlast|].
    rewrite (versioned_newer _ e v Hc); lia.
Qed.

Lemma accepted_last_version (e : Attrs) (st : ParseState) :
  versioned e ->
  last_version (accepted e st) = version_of e /\
  last_version (accepted e st) <> "" /\
  in_item (ctxt (accepted e st)) = in_item (ctxt st).
Proof.
  intros (v & Hv & Hc).
  destruct (versioned_version_of e v Hc) as [E ->].
  unfold accepted; simpl; rewrite E; simpl; now repeat split.
Qed.

Lemma highest_from_nonempty (encs : list Attrs) (st : ParseState) :
  in_item (ctxt st) <> 0 -> last_version st <> "" ->
  Forall versioned encs ->
  ((forall x, In x encs ->
      CompareVersions (version_of x) (last_version st) <= 0) /\
   run_events (enclosure_events encs) st = st)
  \/
  (exists pre e post,
      encs = (pre ++ e :: post)%list /\ first_maximal pre e post /\
      CompareVersions (last_version st) (version_of e) < 0 /\
      run_events (enclosure_events encs) st =
      accepted e (run_events (enclosure_events pre) st)).
Proof.
  revert st; induction encs as [|e0 rest IH]; intros st Hitem Hlast Hall.
  - left; split; [intros x [] | reflexivity].
  - inversion Hall as [|? ? He0 Hrest]; subst.
    cbn [enclosure_events map run_events fold_left handle].
    fold (enclosure_events rest).
    destruct (versioned_step e0 st Hitem Hlast He0) as [[Hlt E]|[Hle E]];
      rewrite E.
    + destruct (accepted_last_version e0 st He0) as (Hl & Hne & Hi).
      assert (Hitem1 : in_item (ctxt (accepted e0 st)) <> 0) by congruence.
      right.
      destruct (IH (accepted e0 st) Hitem1 Hne Hrest)
        as [[Hall' Hrun]|(pre & e & post & -> & [Hpre Hpost] & Hlt' & Hrun)].
      * exists [], e0, rest; rewrite Hl in Hall'.
        split; [reflexivity|].
        split; [split; [intros x [] | exact Hall']|].
        split; [exact Hlt | exact Hrun].
      * rewrite Hl in Hlt'.
        exists (e0 :: pre), e, post.
        split; [reflexivity|].
        split; [split; [|exact Hpost]|].
        { intros x [<-|Hin]; [exact Hlt' | now apply Hpre]. }
        split; [now apply (CompareVersions_lt_trans _ (version_of e0))|].
        cbn [enclosure_events map run_events fold_left handle].
        now rewrite E.
    + destruct (IH st Hitem Hlast Hrest)
        as [[Hall' Hrun]|(pre & e & post & -> & [Hpre Hpost] & Hlt' & Hrun)].
      * left; split; [|exact Hrun].
        intros x [<-|Hin]; [exact Hle | now apply Hall'].
      * right; exists (e0 :: pre), e, post.
        split; [reflexivity|].
        split; [split; [|exact Hpost]|].
        { intros x [<-|Hin]; [|now apply Hpre].
          now apply (CompareVersions_lt_le_trans _ (last_version st)). }
        split; [exact Hlt'|].
        cbn [enclosure_events map run_events fold_left handle].
        now rewrite E.
Qed.

(** C2, as the code has it: for a non-empty run of enclosures met inside an
    item, starting from an empty last-seen-version and all applied to one
    descriptor, each carrying one non-empty [sparkle:version]: afterwards
    the last-seen-version and the descriptor's Version are the version of
    the first enclosure whose version is maximal for the comparator;
    DownloadURL and ShortVersionString are that enclosure's [url] and
    [sparkle:shortVersionString] where it carries them, and otherwise what
    the enclosures before it left; and whenever the last-seen-version
    changes from a non-empty value, it strictly increases. *)
Theorem highest_enclosure_selected (encs : list Attrs) (st : ParseState) :
  in_item (ctxt st) <> 0 ->
  last_version st = "" ->
  encs <> [] ->
  Forall versioned encs ->
  (exists pre e post,
      encs = (pre ++ e :: post)%list /\ first_maximal pre e post /\
      let before := run_events (enclosure_events pre) st in
      let after := run_events (enclosure_events encs) st in
      last_version after = version_of e /\
      Version (appcast (ctxt after)) = version_of e /\
      DownloadURL (appcast (ctxt after)) =
        opt_or (attr_value ATTR_URL e) (DownloadURL (appcast (ctxt before))) /\
      ShortVersionString (appcast (ctxt after)) =
        opt_or (attr_value ATTR_SHORTVERSION e)
               (ShortVersionString (appcast (ctxt before)))) /\
  (forall p e q,
      encs = (p ++ e :: q)%list ->
      let l := last_version (run_events (enclosure_events p) st) in
      let l' := last_version (run_events (enclosure_events (p ++ [e])) st) in
      l <> "" -> l' <> l -> CompareVersions l l' < 0).
Proof.
  intros Hitem Hlast Hne Hall; split.
  - assert (Hsel : exists pre e post,
               encs = (pre ++ e :: post)%list /\ first_maximal pre e post /\
               versioned e /\
               run_events (enclosure_events encs) st =
               accepted e (run_events (enclosure_events pre) st)).
    { destruct encs as [|e0 rest]; [now contradiction Hne|].
      inversion Hall as [|? ? He0 Hrest]; subst.
      cbn [enclosure_events map run_events fold_left handle].
      fold (enclosure_events rest).
      rewrite (OnStartElement_enclosure e0 st Hitem).
      rewrite enclosure_accepts by now left.
      destruct (accepted_last_version e0 st He0) as (Hl & Hne0 & Hi).
      assert (Hitem1 : in_item (ctxt (accepted e0 st)) <> 0) by congruence.
      destruct (highest_from_nonempty rest (accepted e0 st) Hitem1 Hne0 Hrest)
        as [[Hall' Hrun]|(pre & e & post & -> & [Hpre Hpost] & Hlt' & Hrun)].
      - exists [], e0, rest; rewrite Hl in Hall'.
        split; [reflexivity|].
        split; [split; [intros x [] | exact Hall']|].
        split; [exact He0 | exact Hrun].
      - rewrite Hl in Hlt'.
        exists (e0 :: pre), e, post.
        split; [reflexivity|].
        split; [split; [|exact Hpost]|].
        { intros x [<-|Hin]; [exact Hlt' | now apply Hpre]. }
        split.
        + rewrite Forall_forall in Hrest; apply Hrest.
          apply in_or_app; right; now left.
        + cbn [enclosure_events map run_events fold_left handle].
          rewrite (OnStartElement_enclosure e0 st Hitem).
          now rewrite enclosure_accepts by now left. }
    destruct Hsel as (pre & e & post & Henc & Hmax & (v & Hv & Hc) & Hrun).
    exists pre, e, post; split; [exact Henc|]; split; [exact Hmax|].
    cbv zeta; rewrite Hrun.
    destruct (versioned_version_of e v Hc) as [E Ev].
    unfold accepted; simpl; rewrite E, Ev; simpl; now repeat split.
  - intros p e q Henc; cbv zeta.
    rewrite enclosure_events_app_one.
    set (sp := run_events (enclosure_events p) st).
    intros Hl Hchg.
    assert (Hi : in_item (ctxt sp) <> 0)
      by (unfold sp; now rewrite enclosure_events_counters).
    assert (He : versioned e).
    { rewrite Forall_forall in Hall; apply Hall; rewrite Henc.
      apply in_or_app; right; now left. }
    destruct (versioned_step e sp Hi Hl He) as [[Hlt E]|[Hle E]];
      rewrite E in *.
    + now rewrite (proj1 (accepted_last_version e sp He)).
    + now contradiction Hchg.
Qed.

Lemma versioned_intro (e : Attrs) (v : string) :
  v <> "" ->
  attr_value ATTR_VERSION e = Some v ->
  (forall w, In (ATTR_VERSION, w) e -> w = v) ->
  versioned e.
Proof.
  intros Hv E Hall; exists v; split; [exact Hv|].
  intros w; split; [apply Hall|].
  intros ->; now apply attr_value_in.
Qed.

Lemma versioned_1_0 : versioned enclosure_1_0.
Proof.
  apply (versioned_intro _ "1.0"); [discriminate | reflexivity|].
  intros w [H|[H|[H|[]]]]; vm_compute in H; congruence.
Qed.

Lemma versioned_2_0 : versioned enclosure_2_0.
Proof.
  apply (versioned_intro _ "2.0"); [discriminate | reflexivity|].
  intros w [H|[H|[]]]; vm_compute in H; congruence.
Qed.

Lemma highest_enclosure_selected_witness :
  exists pre e post,
    [enclosure_1_0; enclosure_2_0] = (pre ++ e :: post)%list /\
    first_maximal pre e post /\
    let before :=
      run_events (enclosure_events pre) (inside_item empty_appcast "") in
    let after :=
      run_events (enclosure_events [enclosure_1_0; enclosure_2_0])
                 (inside_item empty_appcast "") in
    last_version after = version_of e /\
    Version (appcast (ctxt after)) = version_of e /\
    DownloadURL (appcast (ctxt after)) =
      opt_or (attr_value ATTR_URL e) (DownloadURL (appcast (ctxt before))) /\
    ShortVersionString (appcast (ctxt after)) =
      opt_or (attr_value ATTR_SHORTVERSION e)
             (ShortVersionString (appcast (ctxt before))).
Proof.
  apply (highest_enclosure_selected
           [enclosure_1_0; enclosure_2_0] (inside_item empty_appcast "")).
  - simpl; lia.
  - reflexivity.
  - discriminate.
  - repeat constructor; [apply versioned_1_0 | apply versioned_2_0].
Defined.

Lemma split_pair (a b e : Attrs) (pre post : list Attrs) :
  [a; b] = (pre ++ e :: post)%list ->
  (pre = [] /\ e = a /\ post = [b]) \/ (pre = [a] /\ e = b /\ post = []).
Proof.
  destruct pre as [|x [|y pre]]; simpl; intros H.
  - left; inversion H; subst; now repeat split.
  - right; inversion H; subst; now repeat split.
  - exfalso; inversion H as [[Ha Hb Hnil]]; now destruct pre.
Qed.

(** C2 as stated fails in three ways.  The enclosure at 2.0 has no
    [sparkle:shortVersionString], so the descriptor keeps that of the
    enclosure at 1.0 beside Version 2.0.  An empty [sparkle:version] leaves
    the last-seen-version empty, so the enclosure "v1.0" after it is taken
    although it compares lower.  And a second parse of the same feed into a
    fresh descriptor, as [UpdateChecker::Run] makes it, rejects every
    enclosure and leaves Version empty. *)
Lemma highest_enclosure_not_reflected :
  ~ reflects_highest [enclosure_1_0; enclosure_2_0]
      (appcast (ctxt (run_events
                        (enclosure_events [enclosure_1_0; enclosure_2_0])
                        (inside_item empty_appcast "")))) /\
  ~ reflects_highest [enclosure_blank; enclosure_v1_0]
      (appcast (ctxt (run_events
                        (enclosure_events [enclosure_blank; enclosure_v1_0])
                        (inside_item empty_appcast "")))) /\
  (let parse1 :=
     run_events feed_1_0_then_2_0
                (mkParseState (new_context empty_appcast) "") in
   let parse2 :=
     run_events feed_1_0_then_2_0
                (mkParseState (new_context empty_appcast)
                              (last_version parse1)) in
   Version (appcast (ctxt parse1)) = "2.0" /\
   Version (appcast (ctxt parse2)) = "" /\
   ~ reflects_highest
       [enclosure_1_0; enclosure_2_0; enclosure_1_0; enclosure_2_0]
       (appcast (ctxt parse2))).
Proof.
  split; [|split].
  - intros (pre & e & post & Henc & [Hpre Hpost] & HV & HU & HS).
    apply split_pair in Henc as [(-> & -> & ->)|(-> & -> & ->)].
    + vm_compute in HV; discriminate HV.
    + vm_compute in HS; discriminate HS.
  - intros (pre & e & post & Henc & [Hpre Hpost] & HV & HU & HS).
    apply split_pair in Henc as [(-> & -> & ->)|(-> & -> & ->)].
    + vm_compute in HV; discriminate HV.
    + specialize (Hpre enclosure_blank (or_introl eq_refl)).
      vm_compute in Hpre; discriminate Hpre.
  - cbv zeta; split; [reflexivity|]; split; [reflexivity|].
    intros (pre & e & post & Henc & _ & HV & _).
    assert (Hin : In e [enclosure_1_0; enclosure_2_0;
                        enclosure_1_0; enclosure_2_0])
      by (rewrite Henc; apply in_or_app; right; now left).
    destruct Hin as [<-|[<-|[<-|[<-|[]]]]];
      vm_compute in HV; discriminate HV.
Qed.

(* ------------------------------------------------------------------ *)
(** ** Counters and text *)

Lemma string_app_assoc (a b c : string) : ((a ++ b) ++ c = a ++ (b ++ c))%string.
Proof. induction a as [|x a IH]; simpl; [reflexivity | now rewrite IH]. Qed.

Lemma string_app_nil_r (a : string) : (a ++ "" = a)%string.
Proof. induction a as [|x a IH]; simpl; [reflexivity | now rewrite IH]. Qed.

Lemma nonzero_true (n : Z) : nonzero n = true <-> n <> 0.
Proof. unfold nonzero; destruct (Z.eqb_spec n 0); simpl; split; congruence. Qed.

Lemma nonzero_false (n : Z) : nonzero n = false <-> n = 0.
Proof. unfold nonzero; destruct (Z.eqb_spec n 0); simpl; split; congruence. Qed.

(** An enclosure touches the three version fields and nothing else. *)
Lemma enclosure_preserves (attrs : Attrs) (st : ParseState) :
  let st' := enclosure attrs st in
  in_channel (ctxt st') = in_channel (ctxt st) /\
  in_item (ctxt st') = in_item (ctxt st) /\
  in_relnotes (ctxt st') = in_relnotes (ctxt st) /\
  in_title (ctxt st') = in_title (ctxt st) /\
  in_description (ctxt st') = in_description (ctxt st) /\
  ReleaseNotesURL (appcast (ctxt st')) = ReleaseNotesURL (appcast (ctxt st)) /\
  Title (appcast (ctxt st')) = Title (appcast (ctxt st)) /\
  Description (appcast (ctxt st')) = Description (appcast (ctxt st)).
Proof.
  unfold enclosure.
  destruct (_ =? 1); [|now repeat split].
  rewrite enclosure_copy_spec; now repeat split.
Qed.

(** Case analysis on one event, the tests of names and counters settled. *)
Ltac settle_tests st :=
  repeat match goal with
  | |- context [nonzero (?f (ctxt st))] =>
      let H := fresh "Htest" in
      destruct (nonzero (f (ctxt st))) eqn:H;
      [apply nonzero_true in H | apply nonzero_false in H]
  end.

Ltac start_cases name attrs st :=
  rewrite (OnStartElement_by_kind name attrs st);
  pose proof (node_kind_cases name) as Hname;
  pose proof (enclosure_preserves attrs st)
    as (Henc1 & Henc2 & Henc3 & Henc4 & Henc5 & Henc6 & Henc7 & Henc8);
  destruct (node_kind name) eqn:Hk; cbv zeta in *;
  settle_tests st.

Ltac end_cases name st :=
  rewrite (OnEndElement_by_kind name st);
  pose proof (node_kind_cases name) as Hname;
  destruct (node_kind name) eqn:Hk; cbv zeta in *;
  settle_tests st.

Ltac event_cases e st :=
  let name := fresh "name" in
  let attrs := fresh "attrs" in
  let txt := fresh "txt" in
  destruct e as [name attrs|name|txt]; cbn [handle];
  [ start_cases name attrs st
  | end_cases name st
  | unfold OnText; settle_tests st ].

Lemma handle_text_fields (e : XML_Event) (st : ParseState) :
  let said (sel : ContextData -> bool) :=
    match e with
    | CharacterData s => if sel (ctxt st) then s else ""
    | _ => ""
    end in
  ReleaseNotesURL (appcast (ctxt (handle st e))) =
    ReleaseNotesURL (appcast (ctxt st)) ++ said to_relnotes /\
  Title (appcast (ctxt (handle st e))) =
    Title (appcast (ctxt st)) ++ said to_title /\
  Description (appcast (ctxt (handle st e))) =
    Description (appcast (ctxt st)) ++ said to_description.
Proof.
  cbv zeta; unfold to_relnotes, to_title, to_description.
  event_cases e st; simpl; rewrite ?string_app_nil_r;
    try (now repeat split);
    try (rewrite Henc6, Henc7, Henc8; now repeat split).
  all: repeat match goal with
       | H : ?x <> 0 |- _ => apply nonzero_true in H; rewrite ?H
       | H : ?x = 0 |- _ => apply nonzero_false in H; rewrite ?H
       end; simpl; rewrite ?string_app_nil_r; now repeat split.
Qed.

Lemma texts_accumulate (evs : list XML_Event) (st : ParseState) :
  ReleaseNotesURL (appcast (ctxt (run_events evs st))) =
    ReleaseNotesURL (appcast (ctxt st)) ++ texts_while to_relnotes evs st /\
  Title (appcast (ctxt (run_events evs st))) =
    Title (appcast (ctxt st)) ++ texts_while to_title evs st /\
  Description (appcast (ctxt (run_events evs st))) =
    Description (appcast (ctxt st)) ++ texts_while to_description evs st.
Proof.
  revert st; induction evs as [|e evs IH]; intros st.
  - simpl; rewrite !string_app_nil_r; now repeat split.
  - cbn [run_events fold_left texts_while].
    destruct (IH (handle st e)) as (H1 & H2 & H3).
    destruct (handle_text_fields e st) as (E1 & E2 & E3).
    unfold run_events in H1, H2, H3.
    rewrite H1, H2, H3, E1, E2, E3, !string_app_assoc.
    now repeat split.
Qed.

Lemma text_counters_move_inside_item :
  moves_inside_item in_relnotes NODE_RELNOTES /\
  moves_inside_item in_title NODE_TITLE /\
  moves_inside_item in_description NODE_DESCRIPTION.
Proof.
  split; [|split]; intros e st Hchg; revert Hchg.
  all: event_cases e st; simpl;
    rewrite ?Henc3, ?Henc4, ?Henc5; try congruence; intros _.
  all: (split; [assumption|]); subst name.
  all: try (left; split; [now eexists | reflexivity]).
  all: right; split; reflexivity.
Qed.

Lemma item_start_counted (evs : list XML_Event) (a : Appcast) (last : string) :
  let st := run_events evs (mkParseState (new_context a) last) in
  in_item (ctxt st) <> 0 \/ in_relnotes (ctxt st) <> 0 \/
  in_title (ctxt st) <> 0 \/ in_description (ctxt st) <> 0 ->
  exists p attrs q,
    evs = (p ++ StartElement NODE_ITEM attrs :: q)%list /\
    in_channel (ctxt (run_events p (mkParseState (new_context a) last))) <> 0.
Proof.
  cbv zeta; induction evs as [|e evs IH] using rev_ind.
  - simpl; intros [H|[H|[H|H]]]; now contradiction H.
  - rewrite run_events_app; cbn [run_events fold_left].
    set (st := run_events evs (mkParseState (new_context a) last)) in *.
    destruct (Z.eq_dec (in_item (ctxt st)) 0) as [Hi|Hi];
      [destruct (Z.eq_dec (in_relnotes (ctxt st)) 0) as [Hr|Hr];
       [destruct (Z.eq_dec (in_title (ctxt st)) 0) as [Ht|Ht];
        [destruct (Z.eq_dec (in_description (ctxt st)) 0) as [Hd|Hd]|]|]|].
    + (* nothing counted yet: only a counted item start can change that *)
      event_cases e st; simpl;
        rewrite ?Henc2, ?Henc3, ?Henc4, ?Henc5;
        try (intros [H|[H|[H|H]]]; congruence).
      intros _; exists evs, attrs, []; split; [now subst | assumption].
    + intros _; destruct IH as (p & attrs & q & -> & Hp); [tauto|].
      exists p, attrs, (q ++ [e])%list; split; [|exact Hp].
      now rewrite <- app_assoc.
    + intros _; destruct IH as (p & attrs & q & -> & Hp); [tauto|].
      exists p, attrs, (q ++ [e])%list; split; [|exact Hp].
      now rewrite <- app_assoc.
    + intros _; destruct IH as (p & attrs & q & -> & Hp); [tauto|].
      exists p, attrs, (q ++ [e])%list; split; [|exact Hp].
      now rewrite <- app_assoc.
    + intros _; destruct IH as (p & attrs & q & -> & Hp); [tauto|].
      exists p, attrs, (q ++ [e])%list; split; [|exact Hp].
      now rewrite <- app_assoc.
Qed.

(** What the handlers do about text, whatever the events: character data
    is appended verbatim and in call order to ReleaseNotesURL, Title or
    Description exactly while the matching counter [in_relnotes],
    [in_title] or [in_description] is non-zero (the first non-zero one, in
    that order); each of these counters moves only at the start (+1) and
    end (-1) events of its own element, and only while [in_item] is
    non-zero; [in_item] is raised at an item start exactly while
    [in_channel] is non-zero; [in_channel] is raised at every channel start
    and lowered at every channel end; so, from a fresh context, a text
    counter is non-zero only after an item start that came while
    [in_channel] was non-zero. *)
Theorem text_gated_by_counters :
  (forall (evs : list XML_Event) (st : ParseState),
      ReleaseNotesURL (appcast (ctxt (run_events evs st))) =
        ReleaseNotesURL (appcast (ctxt st))
        ++ texts_while to_relnotes evs st /\
      Title (appcast (ctxt (run_events evs st))) =
        Title (appcast (ctxt st)) ++ texts_while to_title evs st /\
      Description (appcast (ctxt (run_events evs st))) =
        Description (appcast (ctxt st))
        ++ texts_while to_description evs st) /\
  (moves_inside_item in_relnotes NODE_RELNOTES /\
   moves_inside_item in_title NODE_TITLE /\
   moves_inside_item in_description NODE_DESCRIPTION) /\
  (forall (attrs : Attrs) (st : ParseState),
      in_item (ctxt (handle st (StartElement NODE_ITEM attrs))) =
      if nonzero (in_channel (ctxt st))
      then in_item (ctxt st) + 1 else in_item (ctxt st)) /\
  (forall (attrs : Attrs) (st : ParseState),
      in_channel (ctxt (handle st (StartElement NODE_CHANNEL attrs))) =
      in_channel (ctxt st) + 1) /\
  (forall (st : ParseState),
      in_channel (ctxt (handle st (EndElement NODE_CHANNEL))) =
      in_channel (ctxt st) - 1) /\
  (forall (evs : list XML_Event) (a : Appcast) (last : string),
      let st := run_events evs (mkParseState (new_context a) last) in
      in_relnotes (ctxt st) <> 0 \/ in_title (ctxt st) <> 0 \/
      in_description (ctxt st) <> 0 ->
      exists p attrs q,
        evs = (p ++ StartElement NODE_ITEM attrs :: q)%list /\
        in_channel
          (ctxt (run_events p (mkParseState (new_context a) last))) <> 0).
Proof.
  split; [exact texts_accumulate|].
  split; [exact text_counters_move_inside_item|].
  split; [|split; [|split]].
  - intros attrs st; cbn [handle]; rewrite OnStartElement_by_kind.
    change (node_kind NODE_ITEM) with KItem; cbv zeta.
    now destruct (nonzero (in_channel (ctxt st))).
  - intros attrs st; cbn [handle]; rewrite OnStartElement_by_kind.
    reflexivity.
  - intros st; cbn [handle]; rewrite OnEndElement_by_kind.
    reflexivity.
  - intros evs a last st H; apply item_start_counted; tauto.
Qed.

(** C6 fails on the code at the end of an item.  The end of an item
    changes nothing, [in_item] included, whereas the end of a channel takes
    [in_channel] down and the end of a releaseNotesLink, title or
    description takes its counter down while [in_item] is non-zero.  So
    after the events of [title_after_item], in which the one item that
    started has ended and no item is open, [in_item] is still 1; the title
    that follows is counted and its character data is appended to Title,
    as it is in the whole document [channel_with_late_title]. *)
Theorem item_end_leaves_item_open :
  (forall st : ParseState, OnEndElement NODE_ITEM st = st) /\
  (forall st : ParseState,
      in_channel (ctxt (OnEndElement NODE_CHANNEL st))
      = in_channel (ctxt st) - 1) /\
  (forall st : ParseState,
      in_relnotes (ctxt (OnEndElement NODE_RELNOTES st)) =
        (if nonzero (in_item (ctxt st))
         then in_relnotes (ctxt st) - 1 else in_relnotes (ctxt st)) /\
      in_title (ctxt (OnEndElement NODE_TITLE st)) =
        (if nonzero (in_item (ctxt st))
         then in_title (ctxt st) - 1 else in_title (ctxt st)) /\
      in_description (ctxt (OnEndElement NODE_DESCRIPTION st)) =
        (if nonzero (in_item (ctxt st))
         then in_description (ctxt st) - 1 else in_description (ctxt st))) /\
  (open_depth NODE_ITEM title_after_item = 0 /\
   open_depth NODE_CHANNEL title_after_item = 1 /\
   in_item (ctxt (run_events title_after_item fresh_parse)) = 1 /\
   in_title (ctxt (run_events title_after_item fresh_parse)) = 1 /\
   Title (appcast (ctxt (run_events title_after_item fresh_parse))) = "" /\
   Title (appcast (ctxt (run_events
                           (title_after_item ++ [CharacterData "x"])
                           fresh_parse))) = "x") /\
  Title (appcast (ctxt (run_events channel_with_late_title fresh_parse)))
  = "x".
Proof.
  split; [|split; [|split; [|split]]].
  - intros st; rewrite OnEndElement_by_kind; reflexivity.
  - intros st; rewrite OnEndElement_by_kind; reflexivity.
  - intros st; rewrite !OnEndElement_by_kind.
    change (node_kind NODE_RELNOTES) with KRelnotes.
    change (node_kind NODE_TITLE) with KTitle.
    change (node_kind NODE_DESCRIPTION) with KDescription.
    cbv zeta; destruct (nonzero (in_item (ctxt st))); now repeat split.
  - repeat split; reflexivity.
  - reflexivity.
Qed.

(* ------------------------------------------------------------------ *)
(** ** The counters on well nested events *)

Lemma kind_depth_nonneg (k : NodeKind) (stack : list string) :
  0 <= kind_depth k stack.
Proof.
  induction stack as [|n stack IH]; simpl; [lia|].
  destruct k, (node_kind n); lia.
Qed.

Lemma tracks_nonneg (stack : list string) (c : ContextData) :
  tracks stack c -> counters_nonneg c.
Proof.
  intros (Hc & Hi & Hz & Hnz); unfold counters_nonneg.
  pose proof (kind_depth_nonneg KChannel stack).
  pose proof (kind_depth_nonneg KRelnotes stack).
  pose proof (kind_depth_nonneg KTitle stack).
  pose proof (kind_depth_nonneg KDescription stack).
  destruct (Z.eq_dec (in_item c) 0) as [E|E];
    [destruct (Hz E) as (? & ? & ?) | destruct (Hnz E) as (? & ? & ?)];
    repeat split; lia.
Qed.

Lemma in_item_nonneg (evs : list XML_Event) (st : ParseState) :
  0 <= in_item (ctxt st) -> 0 <= in_item (ctxt (run_events evs st)).
Proof.
  revert st; induction evs as [|e evs IH]; intros st H; [exact H|].
  cbn [run_events fold_left]; apply IH.
  event_cases e st; simpl; rewrite ?Henc2; lia.
Qed.

Lemma tracks_step (stack : list string) (e : XML_Event)
                  (rest : list XML_Event) (st : ParseState) :
  tracks stack (ctxt st) -> well_nested stack (e :: rest) ->
  exists stack',
    tracks stack' (ctxt (handle st e)) /\ well_nested stack' rest.
Proof.
  intros Ht Hwn; destruct e as [name attrs|name|txt]; cbn [handle].
  - destruct Hwn as [Hitem Hwn]; exists (name :: stack).
    split; [|exact Hwn]; clear Hwn.
    start_cases name attrs st; try specialize (Hitem eq_refl);
      unfold tracks in *; cbn [kind_depth]; rewrite Hk;
      cbn -[Z.add Z.sub kind_depth];
      rewrite ?Henc1, ?Henc2, ?Henc3, ?Henc4, ?Henc5;
      destruct Ht as (Hc & Hi & Hz & Hnz);
      (destruct (Z.eq_dec (in_item (ctxt st)) 0) as [E|E];
       [destruct (Hz E) as (? & ? & ?) | destruct (Hnz E) as (? & ? & ?)]);
      repeat split; intros; lia.
  - destruct stack as [|top below]; [contradiction|].
    destruct Hwn as [-> Hwn]; exists below.
    split; [|exact Hwn]; clear Hwn.
    end_cases name st;
      unfold tracks in *; cbn [kind_depth] in Ht; rewrite Hk in Ht;
      cbn -[Z.add Z.sub kind_depth] in *;
      destruct Ht as (Hc & Hi & Hz & Hnz);
      (destruct (Z.eq_dec (in_item (ctxt st)) 0) as [E|E];
       [destruct (Hz E) as (? & ? & ?) | destruct (Hnz E) as (? & ? & ?)]);
      repeat split; intros; lia.
  - exists stack; split; [|exact Hwn].
    unfold OnText; settle_tests st; exact Ht.
Qed.

Lemma tracks_run (evs rest : list XML_Event) (stack : list string)
                 (st : ParseState) :
  tracks stack (ctxt st) -> well_nested stack (evs ++ rest) ->
  exists stack',
    tracks stack' (ctxt (run_events evs st)) /\ well_nested stack' rest.
Proof.
  revert stack st; induction evs as [|e evs IH]; intros stack st Ht Hwn.
  - now exists stack.
  - destruct (tracks_step stack e (evs ++ rest) st Ht Hwn)
      as (stack1 & Ht1 & Hwn1).
    cbn [run_events fold_left]; now apply (IH stack1).
Qed.

(** C7, as the code has it: [in_item] is never below zero, after any
    sequence of events; the decrements of the other four counters are not
    clamped, and all five counters are zero or more after every event of a
    sequence that is well nested (each end event closes the innermost open
    element) and in which no item starts inside an open releaseNotesLink,
    title or description. *)
Theorem counters_nonneg_when_well_nested
        (evs rest : list XML_Event) (a : Appcast) (last : string) :
  0 <= in_item (ctxt (run_events evs (mkParseState (new_context a) last))) /\
  (well_nested [] (evs ++ rest) ->
   counters_nonneg
     (ctxt (run_events evs (mkParseState (new_context a) last)))).
Proof.
  split.
  - apply in_item_nonneg; simpl; lia.
  - intros Hwn.
    destruct (tracks_run evs rest [] (mkParseState (new_context a) last))
      as (stack & Ht & _); [|exact Hwn|now apply (tracks_nonneg stack)].
    unfold tracks; simpl; repeat split; intros; lia.
Qed.

Lemma counters_nonneg_when_well_nested_witness :
  counters_nonneg (ctxt (run_events feed_1_0_then_2_0 fresh_parse)).
Proof.
  apply (proj2 (counters_nonneg_when_well_nested
                  feed_1_0_then_2_0 [] empty_appcast "")).
  vm_compute; repeat split; discriminate.
Defined.

(** C7 as stated fails: the end of a title that was never counted takes
    [in_title] to -1, also on well nested events, where a title encloses
    the item; and the end of a channel that was never started takes
    [in_channel] to -1. *)
Lemma counters_go_negative :
  in_title (ctxt (run_events title_ended_unopened fresh_parse)) = -1 /\
  ~ counters_nonneg (ctxt (run_events title_ended_unopened fresh_parse)) /\
  in_title (ctxt (run_events title_around_item fresh_parse)) = -1 /\
  in_channel (ctxt (run_events [EndElement NODE_CHANNEL] fresh_parse)) = -1.
Proof.
  repeat split; try reflexivity.
  intros (_ & _ & _ & H & _); vm_compute in H; now apply H.
Qed.

(* ------------------------------------------------------------------ *)
(** ** [Appcast::Load] *)

(** C8: [Appcast::Load] fails, rather than returning normally, exactly when
    the XML engine cannot be created or the engine reports a parse error on
    the bytes it is fed; in the second case the failure carries the message
    "XML parser error: " followed by the engine's own description of the
    error; so a document on which the engine reports an error, as it does
    on truncated or invalid XML, never yields a normal return. *)
Theorem Load_fails_exactly
        (eng : XML_Engine) (xml : string) (this : Appcast) (last : string) :
  ((exists what, outcome (Load eng xml this last) = Thrown what) <->
   XML_ParserCreateNS eng = false \/
   snd (XML_Parse eng xml) = XML_STATUS_ERROR) /\
  (outcome (Load eng xml this last) = Returned <->
   XML_ParserCreateNS eng = true /\
   snd (XML_Parse eng xml) <> XML_STATUS_ERROR) /\
  (XML_ParserCreateNS eng = false ->
   outcome (Load eng xml this last) = Thrown "Failed to create XML parser.") /\
  (XML_ParserCreateNS eng = true ->
   snd (XML_Parse eng xml) = XML_STATUS_ERROR ->
   outcome (Load eng xml this last) =
   Thrown ("XML parser error: "
           ++ XML_ErrorString eng (XML_GetErrorCode eng xml))).
Proof.
  unfold Load, outcome.
  destruct (XML_ParserCreateNS eng); simpl;
    [destruct (XML_Parse eng xml) as [evs [| |]]; simpl|].
  all: split; [split; [intros [what H] | intros H]|].
  all: try discriminate H; try (now right); try (now left);
    try (eexists; reflexivity);
    try (destruct H as [H|H]; discriminate H).
  all: split; [split; [intros H | intros [H1 H2]]|].
  all: try discriminate; try reflexivity; try congruence;
    try (split; [reflexivity | discriminate]).
  all: split; intros; try discriminate; reflexivity.
Qed.

Lemma Load_fails_exactly_witness :
  outcome (Load sample_engine truncated_feed empty_appcast "") =
  Thrown "XML parser error: no element found".
Proof.
  apply (proj2 (proj2 (proj2 (Load_fails_exactly
                                sample_engine truncated_feed
                                empty_appcast "")))); reflexivity.
Defined.

(** C10: [Appcast::Load] is not atomic on error: when it fails with a parse
    error, the descriptor and the last-seen-version are left as the
    handlers made them on the events that precede the point of the error;
    nothing is put back to what it was before the call. *)
Theorem Load_keeps_mutations_on_error
        (eng : XML_Engine) (xml : string) (this : Appcast) (last : string)
        (evs : list XML_Event) :
  XML_ParserCreateNS eng = true ->
  XML_Parse eng xml = (evs, XML_STATUS_ERROR) ->
  let reached := run_events evs (mkParseState (new_context this) last) in
  (exists what, outcome (Load eng xml this last) = Thrown what) /\
  descriptor_after (Load eng xml this last) = appcast (ctxt reached) /\
  last_version_after (Load eng xml this last) = last_version reached.
Proof.
  intros Hc Hp; unfold Load, outcome, descriptor_after, last_version_after.
  rewrite Hc, Hp; simpl.
  split; [eexists; reflexivity | split; reflexivity].
Qed.

Lemma Load_keeps_mutations_on_error_witness :
  (exists what,
      outcome (Load sample_engine truncated_feed empty_appcast "")
      = Thrown what) /\
  Version (descriptor_after
             (Load sample_engine truncated_feed empty_appcast "")) = "1.0" /\
  DownloadURL (descriptor_after
                 (Load sample_engine truncated_feed empty_appcast ""))
  = "http://example.com/app-1.0.exe" /\
  descriptor_after (Load sample_engine truncated_feed empty_appcast "")
  <> empty_appcast /\
  last_version_after (Load sample_engine truncated_feed empty_appcast "")
  = "1.0".
Proof.
  destruct (Load_keeps_mutations_on_error
              sample_engine truncated_feed empty_appcast ""
              [StartElement "rss" []; StartElement NODE_CHANNEL [];
               StartElement NODE_ITEM [];
               StartElement NODE_ENCLOSURE enclosure_1_0;
               EndElement NODE_ENCLOSURE]
              eq_refl eq_refl) as (Ht & Hd & Hl).
  split; [exact Ht|].
  rewrite Hd, Hl.
  repeat split; try reflexivity.
  vm_compute; discriminate.
Defined.

(* ------------------------------------------------------------------ *)
(** ** More on splitting a version *)

Lemma merge_part_head (s : string) (t : CharType) (parts : list string) :
  s <> "" ->
  exists h rest, merge_part s t parts = h :: rest /\ front h = front s.
Proof.
  intros Hs; destruct parts as [|p ps]; simpl.
  - now exists s, [].
  - destruct (_ || _).
    + now exists s, (p :: ps).
    + exists (s ++ p)%string, ps; split; [reflexivity|].
      destruct s; [now contradiction Hs | reflexivity].
Qed.

Lemma split_loop_rec (rest s : string) (prevType : CharType)
                     (vec : list string) :
  s <> "" ->
  split_loop rest s prevType vec =
  (vec ++ merge_part s prevType (split_rec rest))%list.
Proof.
  revert s prevType vec; induction rest as [|c rest IH];
    intros s prevType vec Hs; [reflexivity|].
  cbn [split_loop split_rec].
  destruct (merge_part_head (String c EmptyString) (ClassifyChar c)
              (split_rec rest)) as (h & t & Hm & Hh); [discriminate|].
  assert (Hth : part_type h = ClassifyChar c) by (unfold part_type; now rewrite Hh).
  destruct (negb (CharType_eqb prevType (ClassifyChar c))
            || CharType_eqb prevType Type_Period) eqn:Hnew.
  - rewrite IH by discriminate.
    rewrite Hm; cbn [merge_part]; rewrite Hth, Hnew.
    now rewrite <- app_assoc.
  - rewrite IH by (unfold push_char; destruct s; discriminate).
    f_equal.
    rewrite Hm; cbn [merge_part]; rewrite Hth, Hnew.
    apply orb_false_elim in Hnew as [Hsame Hper].
    apply negb_false_iff, CharType_eqb_eq in Hsame; subst prevType.
    unfold push_char in *.
    destruct (split_rec rest) as [|p ps]; cbn [merge_part] in *.
    + injection Hm as <- <-; reflexivity.
    + rewrite Hper, orb_false_r in *.
      destruct (negb (CharType_eqb (ClassifyChar c) (part_type p))).
      * injection Hm as <- <-; reflexivity.
      * injection Hm as <- <-; now rewrite string_app_assoc.
Qed.

Lemma SplitVersionString_rec (version : string) :
  SplitVersionString version = split_rec version.
Proof.
  destruct version as [|c rest]; [reflexivity|].
  unfold SplitVersionString; now rewrite split_loop_rec.
Qed.

Lemma join_merge_part (s : string) (t : CharType) (parts : list string) :
  join_parts (merge_part s t parts) = (s ++ join_parts parts)%string.
Proof.
  destruct parts as [|p ps]; [reflexivity|]; simpl.
  destruct (_ || _); simpl; [reflexivity | apply string_app_assoc].
Qed.

(** X1: putting the components of a version string back together, in
    order, gives the version string: splitting loses and adds nothing. *)
Theorem SplitVersionString_join (version : string) :
  join_parts (SplitVersionString version) = version.
Proof.
  rewrite SplitVersionString_rec.
  induction version as [|c rest IH]; [reflexivity|].
  cbn [split_rec]; rewrite join_merge_part, IH; reflexivity.
Qed.

Lemma part_type_cons (c : ascii) (s : string) :
  part_type (String c s) = ClassifyChar c.
Proof. reflexivity. Qed.

Lemma component_single (c : ascii) : component (String c EmptyString).
Proof.
  split; [apply uniform_part_single|].
  rewrite part_type_cons; unfold ClassifyChar.
  destruct (Ascii.eqb_spec c "."%char) as [->|H]; [reflexivity|].
  destruct (is_digit c); discriminate.
Qed.

Lemma component_merge (c : ascii) (parts : list string) :
  Forall component parts ->
  Forall component (merge_part (String c EmptyString) (ClassifyChar c) parts).
Proof.
  intros Hall; destruct parts as [|p ps]; cbn [merge_part].
  - constructor; [apply component_single | constructor].
  - destruct (negb (CharType_eqb (ClassifyChar c) (part_type p))
              || CharType_eqb (ClassifyChar c) Type_Period) eqn:Hnew.
    + constructor; [apply component_single | exact Hall].
    + inversion Hall as [|? ? [[Hne Hu] Hper] Hps]; subst.
      apply orb_false_elim in Hnew as [Hsame Hnp].
      apply negb_false_iff, CharType_eqb_eq in Hsame.
      constructor; [|exact Hps].
      change (String c EmptyString ++ p)%string with (String c p).
      split; [split; [discriminate|]|].
      * rewrite part_type_cons; cbn [string_forall].
        rewrite CharType_eqb_refl, Hsame; exact Hu.
      * rewrite part_type_cons; intros Hp.
        rewrite Hp in Hnp; discriminate Hnp.
Qed.

(** X2: every component of a version string is a non-empty run of
    characters of one class, and a Period component is the single
    character "."; so no component holds two periods, and a period is
    never joined to its neighbours. *)
Theorem SplitVersionString_components (version : string) :
  Forall component (SplitVersionString version).
Proof.
  rewrite SplitVersionString_rec.
  induction version as [|c rest IH]; [constructor|].
  cbn [split_rec]; now apply component_merge.
Qed.

Lemma maximal_runs_merge (c : ascii) (parts : list string) :
  maximal_runs parts ->
  maximal_runs (merge_part (String c EmptyString) (ClassifyChar c) parts).
Proof.
  intros Hm; destruct parts as [|p ps]; cbn [merge_part]; [exact I|].
  destruct (negb (CharType_eqb (ClassifyChar c) (part_type p))
            || CharType_eqb (ClassifyChar c) Type_Period) eqn:Hnew.
  - split; [|exact Hm].
    rewrite part_type_cons.
    apply orb_true_iff in Hnew as [H|H].
    + left; intros E; rewrite E, CharType_eqb_refl in H; discriminate H.
    + right; now apply CharType_eqb_eq.
  - apply orb_false_elim in Hnew as [Hsame _].
    apply negb_false_iff, CharType_eqb_eq in Hsame.
    change (String c EmptyString ++ p)%string with (String c p).
    destruct ps as [|q qs]; [exact I|].
    destruct Hm as [Hpq Hrest]; split; [|exact Hrest].
    now rewrite part_type_cons, Hsame.
Qed.

(** X3: the components are maximal: of two components that follow one
    another, the first is a period or the two differ in class. *)
Theorem SplitVersionString_maximal (version : string) :
  maximal_runs (SplitVersionString version).
Proof.
  rewrite SplitVersionString_rec.
  induction version as [|c rest IH]; [exact I|].
  cbn [split_rec]; now apply maximal_runs_merge.
Qed.

Lemma split_rec_head (c : ascii) (rest : string) :
  exists h t, split_rec (String c rest) = h :: t /\ front h = c.
Proof.
  cbn [split_rec].
  destruct (merge_part_head (String c EmptyString) (ClassifyChar c)
              (split_rec rest)) as (h & t & H & Hf); [discriminate|].
  now exists h, t.
Qed.

(** X4: the empty version string against any other: it equals itself, it
    is greater than a version that begins with a String-class character
    (a letter, say), and it is less than one that begins with a digit or a
    period. *)
Theorem CompareVersions_empty (c : ascii) (rest : string) :
  CompareVersions "" "" = 0 /\
  CompareVersions "" (String c rest) =
    (if CharType_eqb (ClassifyChar c) Type_String then 1 else -1) /\
  CompareVersions (String c rest) "" =
    (if CharType_eqb (ClassifyChar c) Type_String then -1 else 1).
Proof.
  split; [reflexivity|].
  rewrite !CompareVersions_lists, !SplitVersionString_rec.
  destruct (split_rec_head c rest) as (h & t & -> & Hf).
  cbn [split_rec compare_lists]; unfold extra_part; rewrite Hf.
  destruct (CharType_eqb _ _); split; reflexivity.
Qed.

Lemma compare_parts_range (a b : string) (r : Z) :
  compare_parts a b = Some r -> r = 1 \/ r = -1.
Proof.
  unfold compare_parts.
  pose proof (string_compare_range a b).
  destruct (ClassifyChar (front a)), (ClassifyChar (front b)); simpl;
    try (intros E; injection E as <-; lia); try discriminate.
  - split_ltb; intros E; try discriminate E; injection E as <-; lia.
  - destruct (Z.eqb_spec (string_compare a b) 0); simpl;
      intros E; try discriminate E; injection E as <-; lia.
Qed.

Lemma compare_lists_range (A B : list string) :
  -1 <= compare_lists A B <= 1.
Proof.
  revert B; induction A as [|a A IH]; intros [|b B]; simpl;
    unfold extra_part; try (destruct (CharType_eqb _ _); lia); try lia.
  destruct (compare_parts a b) as [r|] eqn:E; [|apply IH].
  destruct (compare_parts_range a b r E); lia.
Qed.

(** X5: versions that compare equal are interchangeable: if
    [cmp(a,b) == 0] then [a] and [b] compare alike with every third
    version, on either side. *)
Theorem CompareVersions_equivalent (a b c : string) :
  CompareVersions a b = 0 ->
  CompareVersions a c = CompareVersions b c /\
  CompareVersions c a = CompareVersions c b.
Proof.
  rewrite !CompareVersions_lists.
  set (A := SplitVersionString a); set (B := SplitVersionString b);
    set (C := SplitVersionString c).
  intros Hab.
  assert (Hba : compare_lists B A = 0)
    by (rewrite (compare_lists_antisym A B); lia).
  pose proof (compare_lists_range A C).
  pose proof (compare_lists_range B C).
  pose proof (compare_lists_antisym A C).
  pose proof (compare_lists_antisym B C).
  pose proof (compare_lists_trans A B C).
  pose proof (compare_lists_trans B A C).
  pose proof (compare_lists_trans C A B).
  pose proof (compare_lists_trans C B A).
  lia.
Qed.

Lemma CompareVersions_equivalent_witness :
  CompareVersions "1.0" "2" = CompareVersions "1.00" "2" /\
  CompareVersions "2" "1.0" = CompareVersions "2" "1.00".
Proof.
  apply (CompareVersions_equivalent "1.0" "1.00" "2").
  reflexivity.
Defined.

Lemma merge_part_app (s : string) (t : CharType) (p : string)
                     (ps more : list string) :
  merge_part s t ((p :: ps) ++ more) = (merge_part s t (p :: ps) ++ more)%list.
Proof. simpl; now destruct (_ || _). Qed.

Lemma split_rec_app (v : string) (c : ascii) (rest : string) :
  v <> "" ->
  ClassifyChar (back v) <> ClassifyChar c \/
  ClassifyChar (back v) = Type_Period ->
  split_rec (v ++ String c rest) =
  (split_rec v ++ split_rec (String c rest))%list.
Proof.
  induction v as [|x v IH]; intros Hne Hb; [now contradiction Hne|].
  destruct v as [|y v].
  - cbn [String.append split_rec back] in *.
    destruct (split_rec_head c rest) as (h & t & E & Hf).
    cbn [split_rec] in E; rewrite E; cbn [merge_part app].
    unfold part_type; rewrite Hf.
    destruct Hb as [Hb|Hb].
    + destruct (CharType_eqb (ClassifyChar x) (ClassifyChar c)) eqn:Eq;
        [apply CharType_eqb_eq in Eq; now contradiction Hb | reflexivity].
    + rewrite Hb; simpl; now rewrite orb_true_r.
  - change (String x (String y v) ++ String c rest)%string
      with (String x (String y v ++ String c rest)).
    cbn [split_rec]; cbn [split_rec] in IH.
    rewrite IH; [|discriminate | exact Hb].
    destruct (split_rec_head y v) as (h & t & E & _).
    cbn [split_rec] in E; rewrite E.
    apply merge_part_app.
Qed.

Lemma compare_parts_self (a : string) : compare_parts a a = None.
Proof.
  unfold compare_parts; rewrite CharType_eqb_refl.
  destruct (ClassifyChar (front a)); [| reflexivity |].
  - split_ltb; try reflexivity; lia.
  - now rewrite string_compare_refl.
Qed.

Lemma compare_lists_app_self (A B : list string) :
  compare_lists (A ++ B) A =
  match B with
  | [] => 0
  | b :: _ => extra_part b
  end.
Proof.
  induction A as [|a A IH]; simpl.
  - now destruct B.
  - now rewrite compare_parts_self.
Qed.

(** X6: a version against itself with something appended that begins a new
    component (the appended text starts with a character of another class
    than the one the version ends with, or the version ends with a period):
    when the appended text starts with a String-class character the longer
    version is the lesser one, as 1.5b3 is less than 1.5; when it starts
    with a digit or a period the longer version is the greater one, as
    1.5.1 is greater than 1.5. *)
Theorem CompareVersions_suffix (v : string) (c : ascii) (rest : string) :
  v <> "" ->
  ClassifyChar (back v) <> ClassifyChar c \/
  ClassifyChar (back v) = Type_Period ->
  CompareVersions (v ++ String c rest) v =
    (if CharType_eqb (ClassifyChar c) Type_String then -1 else 1) /\
  CompareVersions v (v ++ String c rest) =
    (if CharType_eqb (ClassifyChar c) Type_String then 1 else -1).
Proof.
  intros Hne Hb.
  assert (H : CompareVersions (v ++ String c rest) v =
              if CharType_eqb (ClassifyChar c) Type_String then -1 else 1).
  { rewrite CompareVersions_lists, !SplitVersionString_rec.
    rewrite (split_rec_app v c rest Hne Hb), compare_lists_app_self.
    destruct (split_rec_head c rest) as (h & t & -> & Hf).
    unfold extra_part; now rewrite Hf. }
  split; [exact H|].
  rewrite (CompareVersions_flip (v ++ String c rest) v), H.
  destruct (CharType_eqb _ _); reflexivity.
Qed.

Lemma CompareVersions_suffix_witness :
  CompareVersions "1.5b3" "1.5" = -1 /\ CompareVersions "1.5" "1.5b3" = 1.
Proof.
  apply (CompareVersions_suffix "1.5" "b" "3").
  - discriminate.
  - left; vm_compute; discriminate.
Defined.

(* ------------------------------------------------------------------ *)
(** ** What a parse does to the version fields *)

Lemma is_enclosure_kind (n : string) :
  (n =? NODE_ENCLOSURE)%string =
  match node_kind n with
  | KEnclosure => true
  | _ => false
  end.
Proof.
  pose proof (node_kind_cases n) as H.
  destruct (node_kind n); try (subst n; reflexivity).
  now apply eqb_neq.
Qed.

Lemma handle_version_part (e : XML_Event) (st : ParseState) :
  version_part (handle st e) =
  match e with
  | StartElement n attrs =>
      if (n =? NODE_ENCLOSURE)%string && nonzero (in_item (ctxt st))
      then version_part (enclosure attrs st)
      else version_part st
  | _ => version_part st
  end.
Proof.
  destruct e as [name attrs|name|txt]; cbn [handle].
  - rewrite is_enclosure_kind, OnStartElement_by_kind.
    destruct (node_kind name); cbv zeta; cbn [andb];
      try (destruct (nonzero (in_channel (ctxt st))); reflexivity);
      try (destruct (nonzero (in_item (ctxt st))); reflexivity);
      reflexivity.
  - rewrite OnEndElement_by_kind.
    destruct (node_kind name); cbv zeta;
      try (destruct (nonzero (in_item (ctxt st))); reflexivity);
      reflexivity.
  - unfold OnText.
    destruct (nonzero (in_relnotes (ctxt st))); [reflexivity|].
    destruct (nonzero (in_title (ctxt st))); [reflexivity|].
    destruct (nonzero (in_description (ctxt st))); reflexivity.
Qed.

Lemma enclosure_version_part (attrs : Attrs) (s1 s2 : ParseState) :
  version_part s1 = version_part s2 ->
  version_part (enclosure attrs s1) = version_part (enclosure attrs s2).
Proof.
  unfold version_part; intros H; injection H as HV HS HU HL.
  unfold enclosure; rewrite HL.
  destruct (_ =? 1); [|cbn; congruence].
  rewrite !enclosure_copy_spec; cbn; congruence.
Qed.

Lemma enclosure_decides (attrs : Attrs) (st : ParseState) :
  (last_version st = "" \/ newer_than (last_version st) attrs) /\
  enclosure attrs st = accepted attrs st
  \/
  enclosure attrs st = st.
Proof.
  destruct (String.eqb_spec (last_version st) "") as [E|E].
  - left; split; [now left | apply enclosure_accepts; now left].
  - destruct (enclosure_check_range (last_version st) attrs 0
                (or_introl eq_refl)) as [H|H].
    + right; unfold enclosure.
      rewrite length_positive, (eqb_neq _ _ E); simpl; now rewrite H.
    + apply enclosure_check_spec in H as [H|H]; [discriminate|].
      apply newer_than_iff in H.
      left; split; [now right | apply enclosure_accepts; now right].
Qed.

(** X7: the three version fields of the descriptor and the
    last-seen-version change at no event but the start of an enclosure
    that arrives while [in_item] is non-zero and is accepted; end-element
    and character-data events, and every other start, leave them as they
    are. *)
Theorem version_fields_change_only_at_enclosure
        (e : XML_Event) (st : ParseState) :
  version_part (handle st e) <> version_part st ->
  exists attrs,
    e = StartElement NODE_ENCLOSURE attrs /\
    in_item (ctxt st) <> 0 /\
    (last_version st = "" \/ newer_than (last_version st) attrs) /\
    handle st e = accepted attrs st.
Proof.
  rewrite handle_version_part.
  destruct e as [n attrs|n|txt]; try (intros H; now contradiction H).
  destruct (String.eqb_spec n NODE_ENCLOSURE) as [->|Hn];
    [|intros H; now contradiction H].
  destruct (nonzero (in_item (ctxt st))) eqn:Hi;
    [|intros H; now contradiction H].
  apply nonzero_true in Hi; cbn [andb]; intros Hchg.
  exists attrs; split; [reflexivity|]; split; [exact Hi|].
  cbn [handle]; rewrite (OnStartElement_enclosure attrs st Hi).
  destruct (enclosure_decides attrs st) as [[Hacc E]|E].
  - now split.
  - rewrite E in Hchg; now contradiction Hchg.
Qed.

Lemma version_fields_change_only_at_enclosure_witness :
  exists attrs,
    StartElement NODE_ENCLOSURE enclosure_2_0
      = StartElement NODE_ENCLOSURE attrs /\
    in_item (ctxt (inside_item empty_appcast "1.0")) <> 0 /\
    (last_version (inside_item empty_appcast "1.0") = "" \/
     newer_than (last_version (inside_item empty_appcast "1.0")) attrs) /\
    handle (inside_item empty_appcast "1.0")
           (StartElement NODE_ENCLOSURE enclosure_2_0)
    = accepted attrs (inside_item empty_appcast "1.0").
Proof.
  apply (version_fields_change_only_at_enclosure
           (StartElement NODE_ENCLOSURE enclosure_2_0)
           (inside_item empty_appcast "1.0")).
  vm_compute; discriminate.
Defined.

Lemma run_seen_enclosures (evs : list XML_Event) (st s2 : ParseState) :
  version_part st = version_part s2 ->
  in_item (ctxt s2) <> 0 ->
  version_part (run_events evs st) =
  version_part (run_events (enclosure_events (seen_enclosures evs st)) s2).
Proof.
  revert st s2; induction evs as [|e evs IH]; intros st s2 Hv Hi;
    [exact Hv|].
  cbn [run_events fold_left seen_enclosures].
  fold (run_events evs (handle st e)).
  pose proof (handle_version_part e st) as Hstep.
  destruct e as [n attrs|n|txt];
    try (cbn [app]; apply IH; [congruence | exact Hi]).
  destruct ((n =? NODE_ENCLOSURE)%string && nonzero (in_item (ctxt st)));
    [|cbn [app]; apply IH; [congruence | exact Hi]].
  cbn [app enclosure_events map run_events fold_left handle].
  fold (enclosure_events (seen_enclosures evs
                            (handle st (StartElement n attrs)))).
  apply IH.
  - cbn [handle] in Hstep; rewrite Hstep.
    rewrite (OnStartElement_enclosure attrs s2 Hi).
    now apply enclosure_version_part.
  - now rewrite (proj1 (proj2 (OnStartElement_enclosure_counters attrs s2))).
Qed.

(** X8: a parse acts on the version fields and on the last-seen-version
    exactly as the run of its enclosures that start while [in_item] is
    non-zero, taken in document order; all other events, and the
    enclosures outside any item, count for nothing there. *)
Theorem parse_acts_as_its_enclosures
        (evs : list XML_Event) (st : ParseState) :
  version_part (run_events evs st) =
  version_part (run_events (enclosure_events (seen_enclosures evs st))
                           (inside_item (appcast (ctxt st))
                                        (last_version st))).
Proof.
  apply run_seen_enclosures; [reflexivity | simpl; lia].
Qed.

Lemma accepted_version_last (attrs : Attrs) (st : ParseState) :
  (Version (appcast (ctxt (accepted attrs st))) = Version (appcast (ctxt st)) /\
   last_version (accepted attrs st) = last_version st) \/
  Version (appcast (ctxt (accepted attrs st))) = last_version (accepted attrs st).
Proof.
  unfold accepted; simpl.
  destruct (attr_value ATTR_VERSION attrs); simpl; [now right | now left].
Qed.

Lemma handle_version_last (e : XML_Event) (st : ParseState) :
  (Version (appcast (ctxt (handle st e))) = Version (appcast (ctxt st)) /\
   last_version (handle st e) = last_version st) \/
  Version (appcast (ctxt (handle st e))) = last_version (handle st e).
Proof.
  pose proof (handle_version_part e st) as H.
  unfold version_part in H.
  destruct e as [n attrs|n|txt];
    try (left; injection H as HV _ _ HL; now split).
  destruct ((n =? NODE_ENCLOSURE)%string && nonzero (in_item (ctxt st)));
    [|left; injection H as HV _ _ HL; now split].
  injection H as HV _ _ HL; cbn [handle] in *; rewrite HV, HL.
  destruct (enclosure_decides attrs st) as [[_ E]|E]; rewrite E;
    [apply accepted_version_last | now left].
Qed.

(** X9: whatever the events, after them either the descriptor's Version
    and the last-seen-version are both as they were, or the two are the
    same string; so a parse into a fresh descriptor that starts from an
    empty last-seen-version ends with Version equal to the
    last-seen-version. *)
Theorem version_follows_last_version
        (evs : list XML_Event) (st : ParseState) :
  ((Version (appcast (ctxt (run_events evs st))) = Version (appcast (ctxt st)) /\
    last_version (run_events evs st) = last_version st) \/
   Version (appcast (ctxt (run_events evs st)))
   = last_version (run_events evs st)) /\
  (Version (appcast (ctxt st)) = last_version st ->
   Version (appcast (ctxt (run_events evs st)))
   = last_version (run_events evs st)).
Proof.
  assert (H : (Version (appcast (ctxt (run_events evs st)))
               = Version (appcast (ctxt st)) /\
               last_version (run_events evs st) = last_version st) \/
              Version (appcast (ctxt (run_events evs st)))
              = last_version (run_events evs st)).
  { revert st; induction evs as [|e evs IH]; intros st; [now left|].
    cbn [run_events fold_left]; fold (run_events evs (handle st e)).
    destruct (IH (handle st e)) as [[HV HL]|H]; [|now right].
    rewrite HV, HL; apply handle_version_last. }
  split; [exact H|].
  intros E; destruct H as [[HV HL]|H]; congruence.
Qed.

Lemma version_follows_last_version_witness :
  Version (appcast (ctxt (run_events feed_1_0_then_2_0 fresh_parse)))
  = last_version (run_events feed_1_0_then_2_0 fresh_parse).
Proof.
  apply (proj2 (version_follows_last_version feed_1_0_then_2_0 fresh_parse)).
  reflexivity.
Defined.

Lemma handle_counters (e : XML_Event) (s1 s2 : ParseState) :
  counters (ctxt s1) = counters (ctxt s2) ->
  counters (ctxt (handle s1 e)) = counters (ctxt (handle s2 e)).
Proof.
  unfold counters; intros H; injection H as H1 H2 H3 H4 H5.
  destruct e as [name attrs|name|txt]; cbn [handle].
  - rewrite !OnStartElement_by_kind.
    pose proof (enclosure_preserves attrs s1) as (A1 & A2 & A3 & A4 & A5 & _).
    pose proof (enclosure_preserves attrs s2) as (B1 & B2 & B3 & B4 & B5 & _).
    destruct (node_kind name); cbv zeta in *; rewrite ?H1, ?H2;
      try (destruct (nonzero (in_channel (ctxt s2))));
      try (destruct (nonzero (in_item (ctxt s2))));
      simpl; congruence.
  - rewrite !OnEndElement_by_kind.
    destruct (node_kind name); cbv zeta; rewrite ?H1, ?H2;
      try (destruct (nonzero (in_item (ctxt s2))));
      simpl; congruence.
  - unfold OnText; rewrite H3, H4, H5.
    destruct (nonzero (in_relnotes (ctxt s2))); [simpl; congruence|].
    destruct (nonzero (in_title (ctxt s2))); [simpl; congruence|].
    destruct (nonzero (in_description (ctxt s2))); simpl; congruence.
Qed.

(** X10: the nesting counters after a sequence of events are settled by
    the counters before it and the names of the elements that start and
    end: the descriptor, the last-seen-version, the attributes and the
    character data have no part in them; a parse therefore looks at the
    same enclosures whatever it has accepted before. *)
Theorem counters_follow_events
        (evs : list XML_Event) (s1 s2 : ParseState) :
  counters (ctxt s1) = counters (ctxt s2) ->
  counters (ctxt (run_events evs s1)) = counters (ctxt (run_events evs s2)) /\
  seen_enclosures evs s1 = seen_enclosures evs s2.
Proof.
  revert s1 s2; induction evs as [|e evs IH]; intros s1 s2 H;
    [now split|].
  cbn [run_events fold_left seen_enclosures].
  fold (run_events evs (handle s1 e)); fold (run_events evs (handle s2 e)).
  destruct (IH _ _ (handle_counters e s1 s2 H)) as [Hc Hs].
  split; [exact Hc|].
  rewrite Hs; f_equal.
  unfold counters in H; injection H as _ H2 _ _ _.
  destruct e; try reflexivity; now rewrite H2.
Qed.

Lemma counters_follow_events_witness :
  seen_enclosures feed_1_0_then_2_0 fresh_parse =
  seen_enclosures feed_1_0_then_2_0
                  (mkParseState (new_context empty_appcast) "2.0").
Proof.
  apply (counters_follow_events feed_1_0_then_2_0 fresh_parse
           (mkParseState (new_context empty_appcast) "2.0")).
  reflexivity.
Defined.

(* ------------------------------------------------------------------ *)
(** ** Parses that find nothing *)

Lemma quiet_step (e : XML_Event) (st : ParseState) :
  is_item_start e = false \/ in_channel (ctxt st) = 0 ->
  in_item (ctxt st) = 0 -> in_relnotes (ctxt st) = 0 ->
  in_title (ctxt st) = 0 -> in_description (ctxt st) = 0 ->
  (in_item (ctxt (handle st e)) = 0 /\ in_relnotes (ctxt (handle st e)) = 0 /\
   in_title (ctxt (handle st e)) = 0 /\
   in_description (ctxt (handle st e)) = 0) /\
  appcast (ctxt (handle st e)) = appcast (ctxt st) /\
  last_version (handle st e) = last_version st /\
  (is_channel_event e = false ->
   in_channel (ctxt (handle st e)) = in_channel (ctxt st)).
Proof.
  intros Hq Hi Hr Ht Hd.
  event_cases e st; simpl in *; try congruence;
    try (now repeat split);
    try (subst name; now repeat split).
  subst name; destruct Hq as [Hq|Hq]; [discriminate Hq | congruence].
Qed.

Lemma run_without_items (evs : list XML_Event) (st : ParseState) :
  forallb (fun e => negb (is_item_start e)) evs = true \/
  (forallb (fun e => negb (is_channel_event e)) evs = true /\
   in_channel (ctxt st) = 0) ->
  in_item (ctxt st) = 0 -> in_relnotes (ctxt st) = 0 ->
  in_title (ctxt st) = 0 -> in_description (ctxt st) = 0 ->
  appcast (ctxt (run_events evs st)) = appcast (ctxt st) /\
  last_version (run_events evs st) = last_version st.
Proof.
  revert st; induction evs as [|e evs IH]; intros st Hq Hi Hr Ht Hd;
    [now split|].
  cbn [run_events fold_left]; fold (run_events evs (handle st e)).
  assert (Hstep : is_item_start e = false \/ in_channel (ctxt st) = 0).
  { destruct Hq as [Hq|[_ Hq]]; [left | now right].
    cbn [forallb] in Hq; apply andb_prop in Hq as [Hq _].
    now apply negb_true_iff. }
  destruct (quiet_step e st Hstep Hi Hr Ht Hd)
    as ((Hi' & Hr' & Ht' & Hd') & Ha & Hl & Hc).
  rewrite <- Ha, <- Hl; apply IH; try assumption.
  destruct Hq as [Hq|[Hq Hch]]; cbn [forallb] in Hq;
    apply andb_prop in Hq as [He Hq]; [now left|].
  right; split; [exact Hq|].
  rewrite Hc; [exact Hch | now apply negb_true_iff].
Qed.

(** X11: [Appcast::Load] on a document in which the engine finds no start
    of an item, or no start or end of a channel, leaves the descriptor and
    the last-seen-version exactly as they were, however the call ends: a
    feed with no item gives no field, and items outside any channel are
    passed over. *)
Theorem Load_without_items
        (eng : XML_Engine) (xml : string) (this : Appcast) (last : string) :
  forallb (fun e => negb (is_item_start e)) (fst (XML_Parse eng xml)) = true \/
  forallb (fun e => negb (is_channel_event e)) (fst (XML_Parse eng xml)) = true ->
  descriptor_after (Load eng xml this last) = this /\
  last_version_after (Load eng xml this last) = last.
Proof.
  intros H; unfold Load, descriptor_after, last_version_after.
  destruct (XML_ParserCreateNS eng); [|now split].
  destruct (XML_Parse eng xml) as [evs status]; cbn [fst negb] in *.
  destruct (run_without_items evs (mkParseState (new_context this) last))
    as [Ha Hl]; try reflexivity.
  { destruct H as [H|H]; [now left | right; now split]. }
  destruct status; simpl; now split.
Qed.

Lemma Load_without_items_witness :
  descriptor_after
    (Load (mkEngine true
                    (fun _ => ([StartElement "rss" [];
                                StartElement NODE_CHANNEL [];
                                StartElement NODE_TITLE [];
                                CharacterData "News";
                                EndElement NODE_TITLE;
                                EndElement NODE_CHANNEL;
                                EndElement "rss"], XML_STATUS_OK))
                    (fun _ => 0) (fun _ => ""))
          "<rss><channel><title>News</title></channel></rss>"
          empty_appcast "1.0")
  = empty_appcast.
Proof.
  apply (Load_without_items
           _ "<rss><channel><title>News</title></channel></rss>"
           empty_appcast "1.0").
  left; reflexivity.
Defined.

(* ------------------------------------------------------------------ *)
(** ** Character data in pieces *)

Lemma OnText_twice (s1 s2 : string) (st : ParseState) :
  OnText s2 (OnText s1 st) = OnText (s1 ++ s2) st.
Proof.
  unfold OnText.
  destruct (nonzero (in_relnotes (ctxt st))) eqn:Hr; simpl.
  - rewrite Hr; simpl; now rewrite string_app_assoc.
  - destruct (nonzero (in_title (ctxt st))) eqn:Ht; simpl.
    + rewrite Hr, Ht; simpl; now rewrite string_app_assoc.
    + destruct (nonzero (in_description (ctxt st))) eqn:Hd; simpl.
      * rewrite Hr, Ht, Hd; simpl; now rewrite string_app_assoc.
      * now rewrite Hr, Ht, Hd.
Qed.

Lemma OnText_empty (st : ParseState) : OnText "" st = st.
Proof.
  unfold OnText; destruct st as [[[V S U R T D] c i r t d] l]; simpl.
  rewrite !string_app_nil_r.
  destruct (nonzero r); [reflexivity|].
  destruct (nonzero t); [reflexivity|].
  destruct (nonzero d); reflexivity.
Qed.

(** X12: character data that comes in several calls has the effect of the
    same data in one call: the pieces are taken in call order, and nothing
    is lost or put between them. *)
Theorem text_in_pieces (pieces : list string) (st : ParseState) :
  run_events (map CharacterData pieces) st = OnText (join_parts pieces) st.
Proof.
  revert st; induction pieces as [|s pieces IH]; intros st.
  - simpl; now rewrite OnText_empty.
  - cbn [map run_events fold_left handle join_parts fold_right].
    fold (run_events (map CharacterData pieces) (OnText s st)).
    fold (join_parts pieces).
    now rewrite IH, OnText_twice.
Qed.

(* ------------------------------------------------------------------ *)
(** ** The same enclosure again *)

Lemma accepted_twice (attrs : Attrs) (st : ParseState) :
  accepted attrs (accepted attrs st) = accepted attrs st.
Proof.
  unfold accepted; simpl.
  destruct (attr_value ATTR_VERSION attrs),
           (attr_value ATTR_SHORTVERSION attrs),
           (attr_value ATTR_URL attrs); reflexivity.
Qed.

(** X13: an enclosure that arrives a second time changes nothing more:
    handling the same enclosure start twice running leaves the state the
    first one left. *)
Theorem enclosure_twice (attrs : Attrs) (st : ParseState) :
  OnStartElement NODE_ENCLOSURE attrs (OnStartElement NODE_ENCLOSURE attrs st)
  = OnStartElement NODE_ENCLOSURE attrs st.
Proof.
  destruct (Z.eq_dec (in_item (ctxt st)) 0) as [Hi|Hi].
  - assert (E : OnStartElement NODE_ENCLOSURE attrs st = st).
    { rewrite OnStartElement_by_kind.
      change (node_kind NODE_ENCLOSURE) with KEnclosure; cbv zeta.
      now rewrite (proj2 (nonzero_false _) Hi). }
    now rewrite !E.
  - rewrite (OnStartElement_enclosure attrs st Hi).
    destruct (enclosure_decides attrs st) as [[_ E]|E]; rewrite E.
    + assert (Hi' : in_item (ctxt (accepted attrs st)) <> 0) by exact Hi.
      rewrite (OnStartElement_enclosure attrs _ Hi').
      destruct (enclosure_decides attrs (accepted attrs st)) as [[_ E']|E'];
        rewrite E'; [apply accepted_twice | reflexivity].
    + now rewrite (OnStartElement_enclosure attrs st Hi), E.
Qed.

(* ------------------------------------------------------------------ *)
(** ** A feed parsed again *)

Lemma CompareVersions_le_trans (a b c : string) :
  CompareVersions a b <= 0 -> CompareVersions b c <= 0 ->
  CompareVersions a c <= 0.
Proof.
  rewrite (CompareVersions_flip b a), (CompareVersions_flip c b),
          (CompareVersions_flip c a).
  rewrite !CompareVersions_lists; intros H1 H2.
  pose proof (compare_lists_trans (SplitVersionString c)
                (SplitVersionString b) (SplitVersionString a)).
  lia.
Qed.

Lemma CompareVersions_refl (a : string) : CompareVersions a a = 0.
Proof. rewrite CompareVersions_lists; apply compare_lists_refl. Qed.

Lemma counters_follow_events_seen (evs : list XML_Event) (s1 s2 : ParseState) :
  counters (ctxt s1) = counters (ctxt s2) ->
  seen_enclosures evs s1 = seen_enclosures evs s2.
Proof.
  revert s1 s2; induction evs as [|e evs IH]; intros s1 s2 H; [reflexivity|].
  cbn [seen_enclosures].
  rewrite (IH _ _ (handle_counters e s1 s2 H)); f_equal.
  unfold counters in H; injection H as _ H2 _ _ _.
  destruct e; try reflexivity; now rewrite H2.
Qed.

Lemma parse_acts_as_enclosures_seen (evs : list XML_Event) (st : ParseState) :
  version_part (run_events evs st) =
  version_part (run_events (enclosure_events (seen_enclosures evs st))
                           (inside_item (appcast (ctxt st))
                                        (last_version st))).
Proof.
  apply run_seen_enclosures; [reflexivity | simpl; lia].
Qed.

Lemma last_version_bounds (encs : list Attrs) (st : ParseState) :
  in_item (ctxt st) <> 0 -> last_version st <> "" ->
  Forall versioned encs ->
  last_version (run_events (enclosure_events encs) st) <> "" /\
  CompareVersions (last_version st)
                  (last_version (run_events (enclosure_events encs) st)) <= 0 /\
  forall x, In x encs ->
    CompareVersions (version_of x)
                    (last_version (run_events (enclosure_events encs) st)) <= 0.
Proof.
  revert st; induction encs as [|e0 rest IH]; intros st Hitem Hlast Hall.
  - simpl; repeat split; [exact Hlast | | intros x []].
    rewrite CompareVersions_refl; lia.
  - inversion Hall as [|? ? He0 Hrest]; subst.
    cbn [enclosure_events map run_events fold_left handle].
    fold (enclosure_events rest).
    fold (run_events (enclosure_events rest)
                     (OnStartElement NODE_ENCLOSURE e0 st)).
    destruct (versioned_step e0 st Hitem Hlast He0) as [[Hlt E]|[Hle E]];
      rewrite E.
    + destruct (accepted_last_version e0 st He0) as (Hl & Hne & Hi).
      assert (Hitem1 : in_item (ctxt (accepted e0 st)) <> 0) by congruence.
      destruct (IH (accepted e0 st) Hitem1 Hne Hrest) as (Hne' & Hle' & Hall').
      rewrite Hl in Hle'.
      split; [exact Hne'|]; split.
      * apply (CompareVersions_le_trans _ (version_of e0)); [lia | exact Hle'].
      * intros x [<-|Hin]; [exact Hle' | now apply Hall'].
    + destruct (IH st Hitem Hlast Hrest) as (Hne' & Hle' & Hall').
      split; [exact Hne'|]; split; [exact Hle'|].
      intros x [<-|Hin]; [|now apply Hall'].
      now apply (CompareVersions_le_trans _ (last_version st)).
Qed.

Lemma nothing_newer (encs : list Attrs) (st : ParseState) :
  in_item (ctxt st) <> 0 -> last_version st <> "" ->
  Forall versioned encs ->
  (forall x, In x encs ->
     CompareVersions (version_of x) (last_version st) <= 0) ->
  run_events (enclosure_events encs) st = st.
Proof.
  induction encs as [|e0 rest IH]; intros Hitem Hlast Hall Hle;
    [reflexivity|].
  inversion Hall as [|? ? He0 Hrest]; subst.
  cbn [enclosure_events map run_events fold_left handle].
  fold (enclosure_events rest).
  fold (run_events (enclosure_events rest)
                   (OnStartElement NODE_ENCLOSURE e0 st)).
  destruct (versioned_step e0 st Hitem Hlast He0) as [[Hlt E]|[_ E]].
  - specialize (Hle e0 (or_introl eq_refl)).
    rewrite CompareVersions_flip in Hle; lia.
  - rewrite E; apply IH; try assumption.
    intros x Hin; apply Hle; now right.
Qed.

Lemma first_pass_bounds (encs : list Attrs) (a : Appcast) :
  encs <> [] -> Forall versioned encs ->
  last_version (run_events (enclosure_events encs) (inside_item a "")) <> "" /\
  forall x, In x encs ->
    CompareVersions
      (version_of x)
      (last_version (run_events (enclosure_events encs) (inside_item a "")))
    <= 0.
Proof.
  intros Hne Hall; destruct encs as [|e0 rest]; [now contradiction Hne|].
  inversion Hall as [|? ? He0 Hrest]; subst.
  cbn [enclosure_events map run_events fold_left handle].
  fold (enclosure_events rest).
  fold (run_events (enclosure_events rest)
                   (OnStartElement NODE_ENCLOSURE e0 (inside_item a ""))).
  assert (Hitem : in_item (ctxt (inside_item a "")) <> 0) by (simpl; lia).
  rewrite (OnStartElement_enclosure e0 _ Hitem).
  rewrite enclosure_accepts by now left.
  destruct (accepted_last_version e0 (inside_item a "") He0) as (Hl & Hne0 & Hi).
  assert (Hitem1 : in_item (ctxt (accepted e0 (inside_item a ""))) <> 0)
    by congruence.
  destruct (last_version_bounds rest _ Hitem1 Hne0 Hrest)
    as (Hne' & Hle' & Hall').
  rewrite Hl in Hle'.
  split; [exact Hne'|].
  intros x [<-|Hin]; [exact Hle' | now apply Hall'].
Qed.

Lemma second_parse_unchanged
        (evs : list XML_Event) (a b : Appcast) :
  Forall versioned
         (seen_enclosures evs (mkParseState (new_context a) "")) ->
  let first := run_events evs (mkParseState (new_context a) "") in
  let second :=
    run_events evs (mkParseState (new_context b) (last_version first)) in
  Version (appcast (ctxt second)) = Version b /\
  ShortVersionString (appcast (ctxt second)) = ShortVersionString b /\
  DownloadURL (appcast (ctxt second)) = DownloadURL b /\
  last_version second = last_version first.
Proof.
  intros Hall; cbv zeta.
  set (s1 := mkParseState (new_context a) "").
  set (l1 := last_version (run_events evs s1)).
  set (s2 := mkParseState (new_context b) l1).
  assert (Hseen : seen_enclosures evs s2 = seen_enclosures evs s1)
    by (apply counters_follow_events_seen; reflexivity).
  pose proof (parse_acts_as_enclosures_seen evs s2) as H2.
  pose proof (parse_acts_as_enclosures_seen evs s1) as H1.
  rewrite Hseen in H2.
  change (appcast (ctxt s2)) with b in H2.
  change (last_version s2) with l1 in H2.
  change (appcast (ctxt s1)) with a in H1.
  change (last_version s1) with "" in H1.
  assert (Hl1 : l1 = last_version
                       (run_events (enclosure_events (seen_enclosures evs s1))
                                   (inside_item a "")))
    by (unfold l1, version_part in *; now injection H1).
  assert (Hsame : run_events (enclosure_events (seen_enclosures evs s1))
                             (inside_item b l1) = inside_item b l1).
  { fold s1 in Hall.
    destruct (seen_enclosures evs s1) as [|e0 rest] eqn:Es; [reflexivity|].
    destruct (first_pass_bounds (e0 :: rest) a ltac:(discriminate) Hall)
      as [Hne Hle].
    rewrite <- Hl1 in Hne, Hle.
    apply nothing_newer; try assumption; simpl; lia. }
  rewrite Hsame in H2.
  unfold version_part in H2; injection H2 as HV HS HU HL.
  now repeat split.
Qed.


(** X14: a feed that is parsed a second time in the same process gives
    nothing: when a first parse, begun with an empty last-seen-version,
    has looked at enclosures that each carry one non-empty
    [sparkle:version], a parse of the same events that starts from the
    last-seen-version the first one left, into any descriptor, leaves that
    descriptor's Version, ShortVersionString and DownloadURL and the
    last-seen-version untouched; a fresh descriptor keeps an empty
    Version. *)
Theorem second_parse_finds_nothing
        (evs : list XML_Event) (a b : Appcast) :
  Forall versioned
         (seen_enclosures evs (mkParseState (new_context a) "")) ->
  let first := run_events evs (mkParseState (new_context a) "") in
  let second :=
    run_events evs (mkParseState (new_context b) (last_version first)) in
  Version (appcast (ctxt second)) = Version b /\
  ShortVersionString (appcast (ctxt second)) = ShortVersionString b /\
  DownloadURL (appcast (ctxt second)) = DownloadURL b /\
  last_version second = last_version first.
Proof.
  intros Hall; cbv zeta.
  destruct (second_parse_unchanged evs a b Hall) as (HV & HS & HU & HL).
  split; [exact HV|]; split; [exact HS|]; split; [exact HU | exact HL].
Qed.

Lemma second_parse_finds_nothing_witness :
  Version (appcast (ctxt (run_events
                            feed_1_0_then_2_0
                            (mkParseState
                               (new_context empty_appcast)
                               (last_version
                                  (run_events feed_1_0_then_2_0
                                              fresh_parse))))))
  = "".
Proof.
  apply (second_parse_finds_nothing feed_1_0_then_2_0
           empty_appcast empty_appcast).
  repeat constructor; [apply versioned_1_0 | apply versioned_2_0].
Defined.

(** X15: [Appcast::Load] never clears or overwrites the text fields: after
    the call ReleaseNotesURL, Title and Description are what they were
    before it, followed by the character data the handlers took for them,
    in document order. *)
Theorem Load_appends_text
        (eng : XML_Engine) (xml : string) (this : Appcast) (last : string) :
  let evs := if XML_ParserCreateNS eng then fst (XML_Parse eng xml) else [] in
  let st := mkParseState (new_context this) last in
  ReleaseNotesURL (descriptor_after (Load eng xml this last)) =
    ReleaseNotesURL this ++ texts_while to_relnotes evs st /\
  Title (descriptor_after (Load eng xml this last)) =
    Title this ++ texts_while to_title evs st /\
  Description (descriptor_after (Load eng xml this last)) =
    Description this ++ texts_while to_description evs st.
Proof.
  unfold Load, descriptor_after.
  destruct (XML_ParserCreateNS eng); simpl.
  - destruct (XML_Parse eng xml) as [evs status]; simpl.
    pose proof (texts_accumulate evs (mkParseState (new_context this) last))
      as H.
    destruct status; exact H.
  - rewrite !string_app_nil_r; now repeat split.
Qed.

Lemma in_item_grows (e : XML_Event) (st : ParseState) :
  in_item (ctxt st) <= in_item (ctxt (handle st e)).
Proof. event_cases e st; simpl; rewrite ?Henc2; lia. Qed.

(** X16: [in_item] never goes down; so once it is above zero, every
    enclosure that starts later is looked at, wherever it stands in the
    document. *)
Theorem in_item_never_decreases (evs : list XML_Event) (st : ParseState) :
  in_item (ctxt st) <= in_item (ctxt (run_events evs st)) /\
  (0 < in_item (ctxt st) -> seen_enclosures evs st = all_enclosures evs).
Proof.
  revert st; induction evs as [|e evs IH]; intros st; [now split|].
  cbn [run_events fold_left seen_enclosures all_enclosures].
  fold (run_events evs (handle st e)).
  destruct (IH (handle st e)) as [Hle Hseen].
  pose proof (in_item_grows e st) as Hstep.
  split; [lia|].
  intros Hpos; rewrite Hseen by lia.
  destruct e as [n attrs|n|txt]; try reflexivity.
  rewrite (proj2 (nonzero_true (in_item (ctxt st)))) by lia.
  rewrite andb_true_r.
  now destruct (n =? NODE_ENCLOSURE)%string.
Qed.

Lemma in_item_never_decreases_witness :
  seen_enclosures [EndElement NODE_ITEM; EndElement NODE_CHANNEL;
                   StartElement NODE_ENCLOSURE enclosure_2_0]
                  (inside_item empty_appcast "")
  = [enclosure_2_0].
Proof.
  apply (proj2 (in_item_never_decreases
                  [EndElement NODE_ITEM; EndElement NODE_CHANNEL;
                   StartElement NODE_ENCLOSURE enclosure_2_0]
                  (inside_item empty_appcast ""))).
  simpl; lia.
Defined.

(* ------------------------------------------------------------------ *)
(** ** The update check *)

Lemma Load_parts (eng : XML_Engine) (xml : string) (this : Appcast)
                 (last : string) :
  (XML_ParserCreateNS eng = true /\
   descriptor_after (Load eng xml this last) =
     appcast (ctxt (run_events (fst (XML_Parse eng xml))
                               (mkParseState (new_context this) last))) /\
   last_version_after (Load eng xml this last) =
     last_version (run_events (fst (XML_Parse eng xml))
                              (mkParseState (new_context this) last)))
  \/
  (XML_ParserCreateNS eng = false /\
   (exists what, outcome (Load eng xml this last) = Thrown what) /\
   descriptor_after (Load eng xml this last) = this /\
   last_version_after (Load eng xml this last) = last).
Proof.
  unfold Load, outcome, descriptor_after, last_version_after.
  destruct (XML_ParserCreateNS eng); simpl.
  - left; destruct (XML_Parse eng xml) as [evs status]; simpl.
    destruct status; now repeat split.
  - right; repeat split; now eexists.
Qed.

Lemma should_skip_false (env : Collaborators) (k : Checker) (a : Appcast) :
  ShouldSkipUpdate env k a = false <->
  (k = Automatic -> SkipThisVersion env <> Some (Version a)).
Proof.
  unfold ShouldSkipUpdate; destruct k.
  - destruct (SkipThisVersion env) as [toSkip|].
    + destruct (String.eqb_spec toSkip (Version a)) as [->|Hn]; split;
        try discriminate; try reflexivity.
      * intros H; now contradiction (H eq_refl).
      * intros _ _ E; injection E as E; now contradiction Hn.
    + split; [intros _ _; discriminate | reflexivity].
  - split; [intros _ E; discriminate E | reflexivity].
Qed.

(** What it takes for a run to announce an update. *)
Lemma Run_announces (env : Collaborators) (k : Checker) (last : string)
                    (a : Appcast) :
  In (NotifyUpdateAvailable a) (effects (Run env k last)) <->
  AppcastURL env <> "" /\
  exists xml,
    DownloadFile env (AppcastURL env) (GetAppcastDownloadFlags env k)
      = inl xml /\
    outcome (Load (xml_engine env) xml empty_appcast last) = Returned /\
    descriptor_after (Load (xml_engine env) xml empty_appcast last) = a /\
    CompareVersions (AppBuildVersion env) (Version a) < 0 /\
    ShouldSkipUpdate env k a = false.
Proof.
  unfold Run, outcome, descriptor_after.
  destruct (String.eqb_spec (AppcastURL env) "") as [E|E].
  - split.
    + intros [H|[H|[]]]; discriminate H.
    + intros [H _]; now contradiction H.
  - destruct (DownloadFile env (AppcastURL env) (GetAppcastDownloadFlags env k))
      as [xml|what].
    + destruct (Load (xml_engine env) xml empty_appcast last)
        as [[[|what] d] l] eqn:EL; cbn [fst snd].
      * destruct (Z.geb_spec (CompareVersions (AppBuildVersion env) (Version d)) 0)
          as [Hge|Hlt].
        -- split.
           ++ intros [H|[H|[H|[]]]]; discriminate H.
           ++ intros (_ & xml' & Hx & _ & Ha & Hc & _).
              injection Hx as Hx; subst xml'.
              rewrite EL in Ha; cbn in Ha; subst a; lia.
        -- destruct (ShouldSkipUpdate env k d) eqn:Hs.
           ++ split.
              ** intros [H|[H|[H|[]]]]; discriminate H.
              ** intros (_ & xml' & Hx & _ & Ha & _ & Hs').
                 injection Hx as Hx; subst xml'.
                 rewrite EL in Ha; cbn in Ha; subst a; congruence.
           ++ split.
              ** intros [H|[H|[H|[]]]]; try discriminate H.
                 injection H as <-.
                 split; [exact E|]; exists xml; rewrite EL; cbn.
                 repeat split; [lia | exact Hs].
              ** intros (_ & xml' & Hx & _ & Ha & _ & _).
                 injection Hx as Hx; subst xml'.
                 rewrite EL in Ha; cbn in Ha; subst a.
                 right; right; now left.
      * split.
        -- intros [H|[H|[]]]; discriminate H.
        -- intros (_ & xml' & Hx & Ho & _).
           injection Hx as Hx; subst xml'.
           rewrite EL in Ho; discriminate Ho.
    + split.
      * intros [H|[H|[]]]; discriminate H.
      * intros (_ & xml' & Hx & _); discriminate Hx.
Qed.

(** X17: the run of a checker ends by letting an exception through exactly
    when the appcast address is empty, the download throws, or
    [Appcast::Load] throws; it has then signalled readiness, notified the
    error and done nothing else: the time of the last check is not
    written. *)
Theorem Run_error_exactly (env : Collaborators) (k : Checker) (last : string) :
  (rethrown (Run env k last) <> None <->
   AppcastURL env = "" \/
   (exists what,
       DownloadFile env (AppcastURL env) (GetAppcastDownloadFlags env k)
       = inr what) \/
   (exists xml what,
       DownloadFile env (AppcastURL env) (GetAppcastDownloadFlags env k)
       = inl xml /\
       outcome (Load (xml_engine env) xml empty_appcast last) = Thrown what)) /\
  (rethrown (Run env k last) <> None ->
   effects (Run env k last) = [SignalReady; NotifyUpdateError]) /\
  (AppcastURL env = "" ->
   rethrown (Run env k last) = Some "Appcast URL not specified." /\
   last_version_left (Run env k last) = last).
Proof.
  unfold Run, outcome.
  destruct (String.eqb_spec (AppcastURL env) "") as [E|E]; cbn.
  - split; [split; [now left | discriminate]|].
    split; [reflexivity | now split].
  - destruct (DownloadFile env (AppcastURL env) (GetAppcastDownloadFlags env k))
      as [xml|what]; cbn.
    + destruct (Load (xml_engine env) xml empty_appcast last)
        as [[[|what] d] l] eqn:EL; cbn.
      * assert (Hnone : forall (c1 c2 : bool) (x y z : RunResult),
                   rethrown x = None -> rethrown y = None ->
                   rethrown z = None ->
                   rethrown (if c1 then x else if c2 then y else z) = None)
          by (intros [] [] ? ? ?; auto).
        rewrite Hnone by reflexivity.
        split; [split|split].
        -- intros H; now contradiction H.
        -- intros [H|[[w H]|(x & w & Hx & Ht)]];
             [now contradiction E | discriminate H|].
           injection Hx as <-; rewrite EL in Ht; discriminate Ht.
        -- intros H; now contradiction H.
        -- intros H; now contradiction E.
      * split; [split; [|discriminate]|].
        -- intros _; right; right; exists xml, what; split; [reflexivity|].
           now rewrite EL.
        -- split; [reflexivity | intros H; now contradiction E].
    + split; [split; [|discriminate]|].
      * intros _; right; left; now exists what.
      * split; [reflexivity | intros H; now contradiction E].
Qed.

Lemma Run_error_exactly_witness :
  rethrown (Run (mkCollaborators "" (fun _ _ => inl "") sample_engine
                                 0 "1.0" None 1)
                Automatic "2.0")
  = Some "Appcast URL not specified.".
Proof.
  apply (proj2 (proj2 (Run_error_exactly
                         (mkCollaborators "" (fun _ _ => inl "") sample_engine
                                          0 "1.0" None 1)
                         Automatic "2.0"))).
  reflexivity.
Defined.

(** X18: every run signals readiness first and ends with exactly one
    notification, its last call; the time of the last check is written
    exactly in the runs that let no exception through, and the error is
    notified exactly in those that do. *)
Theorem Run_notifies_once (env : Collaborators) (k : Checker) (last : string) :
  exists middle n,
    effects (Run env k last) = (SignalReady :: middle ++ [n])%list /\
    is_notification n = true /\
    (middle = [] \/ middle = [WriteLastCheckTime (time_now env)]) /\
    (middle = [WriteLastCheckTime (time_now env)] <->
     rethrown (Run env k last) = None) /\
    (n = NotifyUpdateError <-> rethrown (Run env k last) <> None).
Proof.
  unfold Run.
  destruct (AppcastURL env =? "")%string.
  { exists [], NotifyUpdateError; cbn; repeat split;
      try discriminate; auto. }
  destruct (DownloadFile env (AppcastURL env) (GetAppcastDownloadFlags env k))
    as [xml|what].
  2: { exists [], NotifyUpdateError; cbn; repeat split;
         try discriminate; auto. }
  destruct (Load (xml_engine env) xml empty_appcast last) as [[[|what] d] l].
  2: { exists [], NotifyUpdateError; cbn; repeat split;
         try discriminate; auto. }
  destruct (CompareVersions (AppBuildVersion env) (Version d) >=? 0);
    [|destruct (ShouldSkipUpdate env k d)].
  - exists [WriteLastCheckTime (time_now env)], NotifyNoUpdates; cbn.
    repeat split; auto; try discriminate; intros H; now contradiction H.
  - exists [WriteLastCheckTime (time_now env)], NotifyNoUpdates; cbn.
    repeat split; auto; try discriminate; intros H; now contradiction H.
  - exists [WriteLastCheckTime (time_now env)], (NotifyUpdateAvailable d); cbn.
    repeat split; auto; try discriminate; intros H; now contradiction H.
Qed.

(** X19: a run announces an update exactly when the download and the parse
    went through, the descriptor announced is the one the parse filled,
    the installed version compares strictly less than the descriptor's
    Version, and, for the automatic checker, that Version is not the one
    recorded under "SkipThisVersion"; the manual checker does not look at
    that setting. *)
Theorem Run_announces_newer (env : Collaborators) (k : Checker)
                            (last : string) (a : Appcast) :
  In (NotifyUpdateAvailable a) (effects (Run env k last)) <->
  AppcastURL env <> "" /\
  exists xml,
    DownloadFile env (AppcastURL env) (GetAppcastDownloadFlags env k)
      = inl xml /\
    outcome (Load (xml_engine env) xml empty_appcast last) = Returned /\
    descriptor_after (Load (xml_engine env) xml empty_appcast last) = a /\
    CompareVersions (AppBuildVersion env) (Version a) < 0 /\
    (k = Automatic -> SkipThisVersion env <> Some (Version a)).
Proof.
  rewrite Run_announces; split.
  - intros (Hu & xml & Hd & Ho & Ha & Hc & Hs).
    split; [exact Hu|]; exists xml.
    repeat split; try assumption; now apply should_skip_false.
  - intros (Hu & xml & Hd & Ho & Ha & Hc & Hs).
    split; [exact Hu|]; exists xml.
    repeat split; try assumption; now apply should_skip_false.
Qed.

Lemma not_below_empty (current : string) :
  current = "" \/ part_type current <> Type_String ->
  CompareVersions current "" >= 0.
Proof.
  destruct current as [|c rest]; intros H; [vm_compute; discriminate|].
  destruct H as [H|H]; [discriminate H|].
  rewrite CompareVersions_lists, !SplitVersionString_rec.
  destruct (split_rec_head c rest) as (h & t & -> & Hf).
  cbn [split_rec compare_lists]; unfold extra_part; rewrite Hf.
  rewrite part_type_cons in H.
  destruct (CharType_eqb (ClassifyChar c) Type_String) eqn:E; [|lia].
  apply CharType_eqb_eq in E; now contradiction H.
Qed.

Lemma below_empty (current : string) :
  current <> "" -> part_type current = Type_String ->
  CompareVersions current "" < 0.
Proof.
  destruct current as [|c rest]; intros Hne H; [now contradiction Hne|].
  rewrite CompareVersions_lists, !SplitVersionString_rec.
  destruct (split_rec_head c rest) as (h & t & -> & Hf).
  cbn [split_rec compare_lists]; unfold extra_part; rewrite Hf.
  rewrite part_type_cons in H; rewrite H; simpl; lia.
Qed.

Lemma Run_last_version (env : Collaborators) (k : Checker) (last xml : string) :
  AppcastURL env <> "" ->
  DownloadFile env (AppcastURL env) (GetAppcastDownloadFlags env k) = inl xml ->
  last_version_left (Run env k last) =
  last_version_after (Load (xml_engine env) xml empty_appcast last).
Proof.
  intros Hu Hd; unfold Run, last_version_after.
  rewrite (eqb_neq _ _ Hu), Hd.
  destruct (Load (xml_engine env) xml empty_appcast last) as [[[|what] d] l];
    cbn [snd]; [|reflexivity].
  destruct (_ >=? 0); [reflexivity|].
  now destruct (ShouldSkipUpdate env k d).
Qed.

Lemma Run_success (env : Collaborators) (k : Checker) (last : string) :
  rethrown (Run env k last) = None ->
  AppcastURL env <> "" /\
  exists xml,
    DownloadFile env (AppcastURL env) (GetAppcastDownloadFlags env k)
      = inl xml /\
    outcome (Load (xml_engine env) xml empty_appcast last) = Returned.
Proof.
  unfold Run, outcome.
  destruct (String.eqb_spec (AppcastURL env) "") as [E|E]; [discriminate|].
  destruct (DownloadFile env (AppcastURL env) (GetAppcastDownloadFlags env k))
    as [xml|what]; [|discriminate].
  destruct (Load (xml_engine env) xml empty_appcast last)
    as [[[|what] d] l] eqn:EL; [|discriminate].
  intros _; split; [exact E|]; exists xml; now rewrite EL.
Qed.

Lemma Load_returned_created (eng : XML_Engine) (xml : string)
                            (this : Appcast) (last : string) :
  outcome (Load eng xml this last) = Returned ->
  XML_ParserCreateNS eng = true.
Proof.
  unfold Load, outcome; destruct (XML_ParserCreateNS eng);
    [reflexivity | discriminate].
Qed.

(** X20: an update is announced at most once in a process: when a first
    check has run from an empty last-seen-version on a feed whose
    enclosures each carry one non-empty [sparkle:version], and the
    installed version begins with a digit or a period (or is empty), a
    second check of the same feed announces no update, because it parses
    into a fresh descriptor, which keeps an empty Version. *)
Theorem second_check_announces_nothing (env : Collaborators) (k : Checker) :
  (forall xml,
      DownloadFile env (AppcastURL env) (GetAppcastDownloadFlags env k)
      = inl xml ->
      Forall versioned
             (seen_enclosures (fst (XML_Parse (xml_engine env) xml))
                              (mkParseState (new_context empty_appcast) ""))) ->
  AppBuildVersion env = "" \/ part_type (AppBuildVersion env) <> Type_String ->
  forall a,
    ~ In (NotifyUpdateAvailable a)
         (effects (Run env k (last_version_left (Run env k "")))).
Proof.
  intros Hfeed Hcur a Hin.
  apply Run_announces in Hin as (Hu & xml & Hd & Ho & Ha & Hc & _).
  rewrite (Run_last_version env k "" xml Hu Hd) in Ho, Ha.
  pose proof (Load_returned_created _ _ _ _ Ho) as Hcr.
  destruct (Load_parts (xml_engine env) xml empty_appcast "")
    as [(_ & _ & Hl1)|(Hno & _)]; [|congruence].
  rewrite Hl1 in Ha.
  destruct (Load_parts (xml_engine env) xml empty_appcast
              (last_version
                 (run_events (fst (XML_Parse (xml_engine env) xml))
                             (mkParseState (new_context empty_appcast) ""))))
    as [(_ & Hd2 & _)|(Hno & _)]; [|congruence].
  rewrite Hd2 in Ha.
  destruct (second_parse_unchanged _ empty_appcast empty_appcast
              (Hfeed xml Hd)) as (HV & _).
  cbv zeta in HV; rewrite Ha in HV; cbn in HV; rewrite HV in Hc.
  pose proof (not_below_empty _ Hcur); lia.
Qed.

Lemma second_check_announces_nothing_witness :
  In (NotifyUpdateAvailable
        (appcast (ctxt (run_events feed_1_0_then_2_0 fresh_parse))))
     (effects (Run sample_collaborators Automatic "")) /\
  ~ In (NotifyUpdateAvailable
          (appcast (ctxt (run_events feed_1_0_then_2_0 fresh_parse))))
       (effects (Run sample_collaborators Automatic
                     (last_version_left
                        (Run sample_collaborators Automatic "")))).
Proof.
  split; [vm_compute; right; right; now left|].
  apply (second_check_announces_nothing sample_collaborators Automatic).
  - intros xml _.
    repeat constructor; [apply versioned_1_0 | apply versioned_2_0].
  - right; vm_compute; discriminate.
Defined.

(** X21: the check of a feed without items (the engine finds no start of
    an item, or no start or end of a channel).  When the installed version
    begins with a digit or a period, or is empty, no update is announced.
    When it begins with a String-class character, such as the v of v1.0,
    a manual check that lets no exception through announces an update
    whose descriptor is empty, and the last-seen-version stays as it
    was. *)
Theorem check_of_feed_without_items
        (env : Collaborators) (k : Checker) (last : string) :
  (forall xml,
      DownloadFile env (AppcastURL env) (GetAppcastDownloadFlags env k)
      = inl xml ->
      forallb (fun e => negb (is_item_start e))
              (fst (XML_Parse (xml_engine env) xml)) = true \/
      forallb (fun e => negb (is_channel_event e))
              (fst (XML_Parse (xml_engine env) xml)) = true) ->
  (AppBuildVersion env = "" \/ part_type (AppBuildVersion env) <> Type_String ->
   forall a, ~ In (NotifyUpdateAvailable a) (effects (Run env k last))) /\
  (AppBuildVersion env <> "" -> part_type (AppBuildVersion env) = Type_String ->
   k = Manual -> rethrown (Run env k last) = None ->
   In (NotifyUpdateAvailable empty_appcast) (effects (Run env k last)) /\
   last_version_left (Run env k last) = last).
Proof.
  intros Hfeed.
  assert (Hload : forall xml,
             DownloadFile env (AppcastURL env) (GetAppcastDownloadFlags env k)
             = inl xml ->
             outcome (Load (xml_engine env) xml empty_appcast last) = Returned ->
             descriptor_after (Load (xml_engine env) xml empty_appcast last)
             = empty_appcast /\
             last_version_after (Load (xml_engine env) xml empty_appcast last)
             = last).
  { intros xml Hd Ho.
    pose proof (Load_returned_created _ _ _ _ Ho) as Hcr.
    destruct (Load_parts (xml_engine env) xml empty_appcast last)
      as [(_ & Hd2 & Hl2)|(Hno & _)]; [|congruence].
    rewrite Hd2, Hl2.
    apply (run_without_items (fst (XML_Parse (xml_engine env) xml))
             (mkParseState (new_context empty_appcast) last));
      try reflexivity.
    destruct (Hfeed xml Hd) as [H|H]; [now left | right; now split]. }
  split.
  - intros Hcur a Hin.
    apply Run_announces in Hin as (Hu & xml & Hd & Ho & Ha & Hc & _).
    destruct (Hload xml Hd Ho) as [Hempty _].
    rewrite Hempty in Ha; subst a; cbn in Hc.
    pose proof (not_below_empty _ Hcur); lia.
  - intros Hne Hty -> Hok.
    destruct (Run_success env Manual last Hok) as (Hu & xml & Hd & Ho).
    destruct (Hload xml Hd Ho) as [Hempty Hlast].
    split.
    + apply Run_announces; split; [exact Hu|]; exists xml.
      repeat split; try assumption.
      now apply below_empty.
    + now rewrite (Run_last_version env Manual last xml Hu Hd).
Qed.

Lemma check_of_feed_without_items_witness :
  ~ In (NotifyUpdateAvailable empty_appcast)
       (effects (Run itemless_collaborators Automatic "")).
Proof.
  apply (proj1 (check_of_feed_without_items
                  itemless_collaborators Automatic ""
                  ltac:(intros xml _; left; reflexivity))).
  right; vm_compute; discriminate.
Defined.

(** X22: over a whole parse that starts from a non-empty
    last-seen-version and looks only at enclosures that each carry one
    non-empty [sparkle:version], the last-seen-version never goes down: at
    the end it is non-empty, not less than it was, and not less than the
    version of any enclosure the parse looked at. *)
Theorem last_version_never_goes_down
        (evs : list XML_Event) (st : ParseState) :
  last_version st <> "" ->
  Forall versioned (seen_enclosures evs st) ->
  last_version (run_events evs st) <> "" /\
  CompareVersions (last_version st) (last_version (run_events evs st)) <= 0 /\
  forall x, In x (seen_enclosures evs st) ->
    CompareVersions (version_of x) (last_version (run_events evs st)) <= 0.
Proof.
  intros Hlast Hall.
  pose proof (parse_acts_as_enclosures_seen evs st) as H.
  unfold version_part in H; injection H as _ _ _ HL.
  rewrite HL.
  assert (Hi : in_item (ctxt (inside_item (appcast (ctxt st))
                                          (last_version st))) <> 0)
    by (simpl; lia).
  destruct (last_version_bounds (seen_enclosures evs st) _ Hi Hlast Hall)
    as (H1 & H2 & H3).
  split; [exact H1|]; split; [exact H2 | exact H3].
Qed.

Lemma last_version_never_goes_down_witness :
  CompareVersions
    "1.5"
    (last_version (run_events feed_1_0_then_2_0
                              (mkParseState (new_context empty_appcast) "1.5")))
  <= 0.
Proof.
  refine (proj1 (proj2 (last_version_never_goes_down
                          feed_1_0_then_2_0
                          (mkParseState (new_context empty_appcast) "1.5")
                          _ _))).
  - discriminate.
  - repeat constructor; [apply versioned_1_0 | apply versioned_2_0].
Defined.
